(** * Operations console: refresh and visualization coordinator

    A shallow embedding of the client-side coordinator of the admin
    panel ([admin_panel/app.js], [admin_panel/charts.js]): the
    auto-refresh timer registry, the debounce helper, the loading
    indicator, the API wrapper with its error handler, the connection
    monitor, the percentage formatter and the chart manager.

    Browser facilities the code relies on (interval and timeout timers,
    [Map], [Set], the lookup of an element of the page, [toFixed], the
    JSON round trip) are modelled by their documented behaviour. *)

From Stdlib Require Import Ascii ZArith NArith QArith Qabs Qround Lia Lqa.
From stdpp Require Import gmap strings list fin_maps pretty.

Local Open Scope string_scope.
#[local] Set Warnings "-clear-no-such-hyp".

(* ===================================================================== *)
(** * Interval timers of the browser *)
(* ===================================================================== *)

Module Timers.

(** What a timer runs.  The two closures of
    [AdminPanel.startAutoRefresh] are named; any other callback is
    identified by a label. *)
Inductive callback :=
| RefreshDashboard
| RefreshTickets
| Callback (name : string).

Record timer := Timer { handler : callback; period : N }.

(** The timer table of the window.  Handles are integers greater than
    zero, hence truthy: [positive]. *)
Record table := Table { next_handle : positive; active : gmap positive timer }.

Definition setInterval (cb : callback) (ms : N) (tb : table) : positive * table :=
  (next_handle tb,
   Table (Pos.succ (next_handle tb)) (<[next_handle tb := Timer cb ms]> (active tb))).

Definition clearInterval (id : positive) (tb : table) : table :=
  Table (next_handle tb) (delete id (active tb)).

(** Handles at or above [next_handle] have not been handed out. *)
Definition table_ok (tb : table) : Prop :=
  ∀ id, is_Some (active tb !! id) → (id < next_handle tb)%positive.

Definition empty : table := Table 1 ∅.

End Timers.

(* ===================================================================== *)
(** * AutoRefresh (charts.js) *)
(* ===================================================================== *)

Module AutoRefresh.
Import Timers.

(** [this.intervals] and [this.enabled]. *)
Record t := Make { intervals : gmap string positive; enabled : bool }.

(** The object together with the timer table it acts on. *)
Definition world : Type := t * table.

Definition registry (w : world) : gmap string positive := intervals (fst w).
Definition timers (w : world) : gmap positive timer := active (snd w).

(** [stop(key)]: [if (intervalId) { clearInterval; delete }]. *)
Definition stop (key : string) (w : world) : world :=
  let '(ar, tb) := w in
  match intervals ar !! key with
  | Some id => (Make (delete key (intervals ar)) (enabled ar), clearInterval id tb)
  | None => w
  end.

(** [start(key, callback, interval)]. *)
Definition start (key : string) (cb : callback) (ms : N) (w : world) : world :=
  if negb (enabled (fst w)) then w
  else
    let '(ar, tb) := stop key w in
    let '(id, tb') := setInterval cb ms tb in
    (Make (<[key := id]> (intervals ar)) (enabled ar), tb').

(** [stopAll()]: [forEach(clearInterval)] then [clear()]. *)
Definition stopAll (w : world) : world :=
  let '(ar, tb) := w in
  (Make ∅ (enabled ar),
   foldr (λ kv acc, clearInterval kv.2 acc) tb (map_to_list (intervals ar))).

(** [toggle()]. *)
Definition toggle (w : world) : world :=
  let '(ar, tb) := w in
  let w' := (Make (intervals ar) (negb (enabled ar)), tb) in
  if negb (enabled (fst w')) then stopAll w' else w'.

(** [new AutoRefresh()] with [CONFIG.AUTO_REFRESH.enabled = flag]. *)
Definition create (flag : bool) (tb : table) : world := (Make ∅ flag, tb).

(** The timers that [key] keeps alive: the active timers whose handle
    the registry stores under [key]. *)
Definition timer_of (key : string) (w : world) : option timer :=
  registry w !! key ≫= λ id, timers w !! id.

(** Coherence of the registry with the timer table.  [foreign] is the
    set of handles handed out to other users of the timer table (for
    instance the probe of the connection monitor). *)
Record coherent (foreign : gset positive) (w : world) : Prop := Coherent {
  coh_table : table_ok (snd w);
  coh_foreign_old : ∀ id, id ∈ foreign → (id < next_handle (snd w))%positive;
  coh_registered : ∀ key id, registry w !! key = Some id → is_Some (timers w !! id);
  coh_one_key : ∀ k1 k2 id,
    registry w !! k1 = Some id → registry w !! k2 = Some id → k1 = k2;
  coh_foreign : ∀ key id, registry w !! key = Some id → id ∉ foreign;
  coh_no_orphan : ∀ id, is_Some (timers w !! id) →
    id ∈ foreign ∨ ∃ key, registry w !! key = Some id
}.

(** What the specification promises of [start]: afterwards [key] keeps
    alive a timer running [cb] every [ms]. *)
Definition start_registers (key : string) (cb : callback) (ms : N) (w : world) : Prop :=
  timer_of key (start key cb ms w) = Some (Timer cb ms).

(** ** Auxiliary facts *)

Lemma clear_all_next (l : list (string * positive)) tb :
  next_handle (foldr (λ kv acc, clearInterval kv.2 acc) tb l) = next_handle tb.
Proof. induction l as [|kv l IH]; simpl; auto. Qed.

Lemma clear_all_lookup (l : list (string * positive)) tb id :
  active (foldr (λ kv acc, clearInterval kv.2 acc) tb l) !! id
  = if decide (id ∈ l.*2) then None else active tb !! id.
Proof.
  induction l as [|[k i] l IH]; simpl.
  - done.
  - destruct (decide (i = id)) as [->|Hne].
    + rewrite lookup_delete_eq. rewrite decide_True; [done | left].
    + rewrite lookup_delete_ne by done. rewrite IH.
      case_decide as Hin.
      * rewrite decide_True; [done | by right].
      * rewrite decide_False; [done|].
        intros Hc. apply elem_of_cons in Hc as [->|Hc]; [by apply Hne | by apply Hin].
Qed.

Lemma stopAll_registry w : registry (stopAll w) = ∅.
Proof. by destruct w as [[m e] tb]. Qed.

Lemma stopAll_enabled w : enabled (fst (stopAll w)) = enabled (fst w).
Proof. by destruct w as [[m e] tb]. Qed.

Lemma stopAll_timers_registered w key id :
  registry w !! key = Some id → timers (stopAll w) !! id = None.
Proof.
  destruct w as [[m e] tb]. unfold timers, registry. simpl. intros Hk.
  rewrite clear_all_lookup. rewrite decide_True; [done|].
  apply list_elem_of_fmap. exists (key, id). split; [done|].
  by apply elem_of_map_to_list.
Qed.

Lemma stopAll_timers_other w id :
  (∀ key, registry w !! key ≠ Some id) →
  timers (stopAll w) !! id = timers w !! id.
Proof.
  destruct w as [[m e] tb]. unfold timers, registry. simpl. intros Hk.
  rewrite clear_all_lookup. rewrite decide_False; [done|].
  intros Hin. apply list_elem_of_fmap in Hin as [[k i] [-> Hin]].
  apply elem_of_map_to_list in Hin. by apply (Hk k).
Qed.

Lemma stopAll_timers_sub w id tm :
  timers (stopAll w) !! id = Some tm → timers w !! id = Some tm.
Proof.
  destruct w as [[m e] tb]. unfold timers. simpl.
  rewrite clear_all_lookup. by case_decide.
Qed.

Lemma stopAll_next w : next_handle (snd (stopAll w)) = next_handle (snd w).
Proof. destruct w as [[m e] tb]. simpl. apply clear_all_next. Qed.

Lemma stopAll_coherent foreign w :
  coherent foreign w → coherent foreign (stopAll w).
Proof.
  intros [Htb Hold Hreg Hone Hfor Horph]. split.
  - intros id [tm Hs]. rewrite stopAll_next. apply Htb.
    exists tm. by apply stopAll_timers_sub.
  - intros id Hid. rewrite stopAll_next. by apply Hold.
  - intros key id. rewrite stopAll_registry. by rewrite lookup_empty.
  - intros k1 k2 id. rewrite stopAll_registry. by rewrite lookup_empty.
  - intros key id. rewrite stopAll_registry. by rewrite lookup_empty.
  - intros id [tm Hs]. pose proof (stopAll_timers_sub _ _ _ Hs) as Hs'.
    destruct (Horph id (ex_intro _ tm Hs')) as [?|[k Hk]]; [by left|].
    rewrite (stopAll_timers_registered _ _ _ Hk) in Hs. done.
Qed.

Lemma stop_enabled key w : enabled (fst (stop key w)) = enabled (fst w).
Proof. destruct w as [[m e] tb]. simpl. by destruct (m !! key). Qed.

Lemma stop_registry key w : registry (stop key w) = delete key (registry w).
Proof.
  destruct w as [[m e] tb]. unfold registry. simpl.
  destruct (m !! key) eqn:E; simpl; [done|].
  symmetry. by apply delete_id.
Qed.

Lemma stop_next key w : next_handle (snd (stop key w)) = next_handle (snd w).
Proof. destruct w as [[m e] tb]. simpl. by destruct (m !! key). Qed.

Lemma stop_timers key w :
  timers (stop key w)
  = match registry w !! key with
    | Some id => delete id (timers w)
    | None => timers w
    end.
Proof.
  destruct w as [[m e] tb]. unfold registry, timers. simpl.
  by destruct (m !! key).
Qed.

Lemma stop_coherent foreign key w :
  coherent foreign w → coherent foreign (stop key w).
Proof.
  intros [Htb Hold Hreg Hone Hfor Horph]. split.
  - intros id. rewrite stop_next.
    change (active (stop key w).2) with (timers (stop key w)).
    rewrite stop_timers. intros Hs. apply Htb.
    change (active w.2) with (timers w).
    destruct (registry w !! key); [|done].
    destruct (decide (p = id)) as [->|?];
      [by rewrite lookup_delete_eq in Hs; destruct Hs
      | by rewrite lookup_delete_ne in Hs].
  - intros id Hid. rewrite stop_next. by apply Hold.
  - intros k id. rewrite stop_registry, stop_timers. intros Hk.
    apply lookup_delete_Some in Hk as [Hne Hk].
    destruct (registry w !! key) as [old|] eqn:E; [|by eapply Hreg].
    rewrite lookup_delete_ne; [by eapply Hreg|].
    intros ->. apply Hne. by eapply Hone.
  - intros k1 k2 id. rewrite stop_registry. intros H1 H2.
    apply lookup_delete_Some in H1 as [_ H1].
    apply lookup_delete_Some in H2 as [_ H2]. by eapply Hone.
  - intros k id. rewrite stop_registry. intros Hk.
    apply lookup_delete_Some in Hk as [_ Hk]. by eapply Hfor.
  - intros id. rewrite stop_registry, stop_timers. intros Hs.
    destruct (registry w !! key) as [old|] eqn:E.
    + destruct (decide (old = id)) as [->|Hne];
        [by rewrite lookup_delete_eq in Hs; destruct Hs|].
      rewrite lookup_delete_ne in Hs by done.
      destruct (Horph id Hs) as [?|[k Hk]]; [by left|right].
      exists k. rewrite lookup_delete_ne; [done|]. intros ->. congruence.
    + destruct (Horph id Hs) as [?|[k Hk]]; [by left|right].
      exists k. rewrite lookup_delete_ne; [done|]. intros ->. congruence.
Qed.

(** [start] on an enabled registry, in terms of [stop]. *)
Lemma start_enabled_eq key cb ms w :
  enabled (fst w) = true →
  start key cb ms w
  = (Make (<[key := next_handle (snd w)]> (registry (stop key w))) true,
     Table (Pos.succ (next_handle (snd w)))
           (<[next_handle (snd w) := Timer cb ms]> (timers (stop key w)))).
Proof.
  intros He. unfold start. rewrite He. simpl.
  pose proof (stop_enabled key w) as Hse. pose proof (stop_next key w) as Hsn.
  destruct (stop key w) as [ar tb] eqn:E. simpl in *.
  unfold registry, timers. simpl. by rewrite Hse, He, Hsn.
Qed.

Lemma start_disabled key cb ms w :
  enabled (fst w) = false → start key cb ms w = w.
Proof. intros He. unfold start. by rewrite He. Qed.

Lemma start_coherent foreign key cb ms w :
  coherent foreign w → coherent foreign (start key cb ms w).
Proof.
  intros Hw. destruct (enabled (fst w)) eqn:He;
    [|by rewrite start_disabled].
  rewrite start_enabled_eq by done.
  pose proof (stop_coherent foreign key w Hw) as [Htb Hold Hreg Hone Hfor Horph].
  rewrite stop_next in *.
  assert (Hfresh : timers (stop key w) !! next_handle (snd w) = None).
  { destruct (timers (stop key w) !! next_handle (snd w)) eqn:E; [|done].
    pose proof (Htb (next_handle (snd w)) (ex_intro _ _ E)) as Hlt.
    rewrite stop_next in Hlt. lia. }
  split; unfold registry, timers in *; simpl in *.
  - unfold table_ok. simpl. intros id Hs.
    destruct (decide (next_handle (snd w) = id)) as [<-|Hne]; [lia|].
    rewrite lookup_insert_ne in Hs by done. apply Htb in Hs. rewrite stop_next in Hs. lia.
  - intros id Hid. apply Hold in Hid. lia.
  - intros k id Hk. destruct (decide (key = k)) as [->|Hne].
    + rewrite lookup_insert_eq in Hk. injection Hk as <-.
      by rewrite lookup_insert_eq.
    + rewrite lookup_insert_ne in Hk by done.
      destruct (decide (next_handle (snd w) = id)) as [<-|Hn];
        [by rewrite lookup_insert_eq|].
      rewrite lookup_insert_ne by done. by eapply Hreg.
  - intros k1 k2 id H1 H2.
    destruct (decide (key = k1)) as [<-|N1], (decide (key = k2)) as [<-|N2];
      [done|..].
    + rewrite lookup_insert_eq in H1. injection H1 as <-.
      rewrite lookup_insert_ne in H2 by done.
      apply Hreg in H2. rewrite Hfresh in H2. by destruct H2.
    + rewrite lookup_insert_eq in H2. injection H2 as <-.
      rewrite lookup_insert_ne in H1 by done.
      apply Hreg in H1. rewrite Hfresh in H1. by destruct H1.
    + rewrite lookup_insert_ne in H1, H2 by done. by eapply Hone.
  - intros k id Hk. destruct (decide (key = k)) as [->|Hne].
    + rewrite lookup_insert_eq in Hk. injection Hk as <-.
      intros Hin. apply Hold in Hin. lia.
    + rewrite lookup_insert_ne in Hk by done. by eapply Hfor.
  - intros id Hs. destruct (decide (next_handle (snd w) = id)) as [<-|Hn].
    + right. exists key. by rewrite lookup_insert_eq.
    + rewrite lookup_insert_ne in Hs by done.
      destruct (Horph id Hs) as [?|[k Hk]]; [by left|right].
      exists k. rewrite lookup_insert_ne; [done|].
      intros <-. pose proof (stop_registry key w) as Hsr.
      unfold registry in Hsr. rewrite Hsr in Hk.
      by rewrite lookup_delete_eq in Hk.
Qed.

Lemma toggle_coherent foreign w :
  coherent foreign w → coherent foreign (toggle w).
Proof.
  intros Hw. destruct w as [[m e] tb]. unfold toggle. simpl.
  assert (Hc : coherent foreign (Make m (negb e), tb)) by (by destruct Hw).
  destruct (negb (negb e)); [|done].
  by apply (stopAll_coherent foreign (Make m (negb e), tb)).
Qed.

Lemma create_coherent flag :
  coherent ∅ (create flag Timers.empty).
Proof.
  split; unfold registry, timers; simpl; intros *;
    rewrite ?lookup_empty; try done; try by intros [? ?].
  intros id [? Hs]. simpl in Hs. by rewrite lookup_empty in Hs.
Qed.

Lemma start_enabled_registry key cb ms w :
  enabled (fst w) = true →
  registry (start key cb ms w) = <[key := next_handle (snd w)]> (registry w).
Proof.
  intros He. rewrite start_enabled_eq by done. unfold registry at 1. simpl.
  rewrite stop_registry. apply insert_delete_eq.
Qed.

Lemma start_enabled_timers key cb ms w :
  enabled (fst w) = true →
  timers (start key cb ms w)
  = <[next_handle (snd w) := Timer cb ms]>
      (match registry w !! key with
       | Some old => delete old (timers w)
       | None => timers w
       end).
Proof.
  intros He. rewrite start_enabled_eq by done. unfold timers at 1. simpl.
  by rewrite stop_timers.
Qed.

Lemma coherent_fresh foreign w :
  coherent foreign w → timers w !! next_handle (snd w) = None.
Proof.
  intros Hw. destruct (timers w !! next_handle (snd w)) eqn:E; [|done].
  pose proof (coh_table _ _ Hw _ (ex_intro _ _ E)). lia.
Qed.

Lemma start_timer_of_same key cb ms w :
  enabled (fst w) = true →
  timer_of key (start key cb ms w) = Some (Timer cb ms).
Proof.
  intros He. unfold timer_of.
  rewrite start_enabled_registry, start_enabled_timers by done.
  rewrite lookup_insert_eq. simpl. by rewrite lookup_insert_eq.
Qed.

Lemma start_timer_of_other foreign key cb ms w k :
  coherent foreign w → enabled (fst w) = true → k ≠ key →
  registry (start key cb ms w) !! k = registry w !! k ∧
  timer_of k (start key cb ms w) = timer_of k w.
Proof.
  intros Hw He Hk. pose proof (coherent_fresh _ _ Hw) as Hfresh.
  unfold timer_of.
  rewrite start_enabled_registry, start_enabled_timers by done.
  rewrite lookup_insert_ne by done. split; [done|].
  destruct (registry w !! k) as [id|] eqn:E; [simpl|done].
  assert (next_handle (snd w) ≠ id).
  { intros <-. apply (coh_registered _ _ Hw) in E.
    rewrite Hfresh in E. by destruct E. }
  rewrite lookup_insert_ne by done.
  destruct (registry w !! key) as [old|] eqn:E'; [|done].
  rewrite lookup_delete_ne; [done|]. intros <-.
  apply Hk. by eapply (coh_one_key _ _ Hw).
Qed.

Lemma start_keeps_enabled key cb ms w :
  enabled (fst (start key cb ms w)) = enabled (fst w).
Proof.
  destruct (enabled (fst w)) eqn:He;
    [by rewrite start_enabled_eq | by rewrite start_disabled].
Qed.

(** ** The registry keeps one timer per key *)

(** C1 (as amended).  [start] preserves the coherence of the registry
    with the timer table, so every active timer it created is stored
    under exactly one key and every key stores exactly one active timer.
    On a disabled registry [start] changes nothing.  On an enabled one
    it cancels the timer stored under [key], if any, and stores one new
    timer running [cb] every [ms], leaving other keys and foreign timers
    alone; a second [start] on the same key leaves only the latest
    timer active. *)
Theorem start_replaces_timer foreign w key cb ms :
  coherent foreign w →
  let w' := start key cb ms w in
  coherent foreign w' ∧
  (enabled (fst w) = false → w' = w) ∧
  (enabled (fst w) = true →
     start_registers key cb ms w ∧
     (∃ id, registry w' !! key = Some id ∧ timers w !! id = None) ∧
     (∀ old, registry w !! key = Some old → timers w' !! old = None) ∧
     (∀ k, k ≠ key →
        registry w' !! k = registry w !! k ∧ timer_of k w' = timer_of k w) ∧
     (∀ id, id ∈ foreign → timers w' !! id = timers w !! id) ∧
     (∀ cb2 ms2 id1,
        registry w' !! key = Some id1 →
        timer_of key (start key cb2 ms2 w') = Some (Timer cb2 ms2) ∧
        timers (start key cb2 ms2 w') !! id1 = None)).
Proof.
  intros Hw w'. split; [by apply start_coherent|].
  split; [by apply start_disabled|]. intros He.
  pose proof (coherent_fresh _ _ Hw) as Hfresh.
  assert (Hreg : registry w' = <[key := next_handle (snd w)]> (registry w))
    by (by apply start_enabled_registry).
  assert (Htm : timers w' = <[next_handle (snd w) := Timer cb ms]>
      (match registry w !! key with
       | Some old => delete old (timers w)
       | None => timers w
       end)) by (by apply start_enabled_timers).
  split; [by apply start_timer_of_same|].
  split.
  { exists (next_handle (snd w)). by rewrite Hreg, lookup_insert_eq. }
  split.
  { intros old Hold. rewrite Htm, Hold.
    assert (next_handle (snd w) ≠ old).
    { intros <-. apply (coh_registered _ _ Hw) in Hold.
      rewrite Hfresh in Hold. by destruct Hold. }
    rewrite lookup_insert_ne by done. apply lookup_delete_eq. }
  split.
  { intros k Hk. by eapply start_timer_of_other. }
  split.
  { intros id Hid. rewrite Htm.
    assert (next_handle (snd w) ≠ id).
    { intros <-. apply (coh_foreign_old _ _ Hw) in Hid. lia. }
    rewrite lookup_insert_ne by done.
    destruct (registry w !! key) as [old|] eqn:E'; [|done].
    rewrite lookup_delete_ne; [done|]. intros <-.
    by apply (coh_foreign _ _ Hw) in E'. }
  intros cb2 ms2 id1 Hid1.
  assert (He' : enabled (fst w') = true).
  { subst w'. by rewrite start_keeps_enabled. }
  split; [by apply start_timer_of_same|].
  rewrite start_enabled_timers by done. rewrite Hid1.
  assert (Hc' : coherent foreign w') by (by apply start_coherent).
  assert (next_handle (snd w') ≠ id1).
  { intros <-. apply (coh_registered _ _ Hc') in Hid1.
    rewrite (coherent_fresh _ _ Hc') in Hid1. by destruct Hid1. }
  rewrite lookup_insert_ne by done. apply lookup_delete_eq.
Qed.

(** Witness for [start_replaces_timer]: "tickets" is started twice
    with different intervals.  The second [start] is the one the
    theorem is applied to: it finds the timer of the first registered,
    cancels it, and leaves the timer with the latest interval. *)
Lemma start_replaces_timer_witness :
  let w1 := start "tickets" RefreshTickets 30000 (create true Timers.empty) in
  let w2 := start "tickets" RefreshTickets 10000 w1 in
  coherent ∅ w1 ∧
  timer_of "tickets" w1 = Some (Timer RefreshTickets 30000) ∧
  registry w1 !! "tickets" = Some 1%positive ∧
  start_registers "tickets" RefreshTickets 10000 w1 ∧
  timers w2 !! 1%positive = None ∧
  coherent ∅ w2.
Proof.
  cbv zeta.
  assert (Hw1 : coherent ∅ (start "tickets" RefreshTickets 30000
                              (create true Timers.empty)))
    by apply start_coherent, create_coherent.
  pose proof (start_replaces_timer ∅
                (start "tickets" RefreshTickets 30000 (create true Timers.empty))
                "tickets" RefreshTickets 10000 Hw1) as (Hw2 & _ & Hon).
  destruct (Hon eq_refl) as (Hreg & _ & Hold & _).
  split; [exact Hw1|]. split; [by vm_compute|]. split; [by vm_compute|].
  split; [exact Hreg|]. split; [|exact Hw2].
  apply Hold. by vm_compute.
Defined.

(** C1 (as stated) fails on a registry that [toggle] has disabled:
    [start] returns at its first line, so starting "tickets" twice
    leaves no timer at all. *)
Lemma start_disabled_counterexample :
  let w0 := toggle (create true Timers.empty) in
  ¬ start_registers "tickets" RefreshTickets 10000 w0 ∧
  timer_of "tickets"
    (start "tickets" RefreshTickets 5000 (start "tickets" RefreshTickets 10000 w0))
  = None.
Proof. split; [intros H; vm_compute in H; discriminate | by vm_compute]. Qed.

End AutoRefresh.

(* ===================================================================== *)
(** * AdminPanel: auto-refresh tasks and page visibility (app.js) *)
(* ===================================================================== *)

Module AdminPanel.
Import Timers AutoRefresh.

(** [CONFIG.AUTO_REFRESH]. *)
Record auto_refresh_config := AutoRefreshConfig {
  ar_enabled : bool;
  ar_dashboard : N;
  ar_tickets : N;
  ar_searches : N;
  ar_clicks : N;
  ar_users : N;
  ar_partners : N
}.

Definition CONFIG_AUTO_REFRESH : auto_refresh_config :=
  AutoRefreshConfig true 30000 10000 60000 60000 300000 300000.

(** [AdminPanel.startAutoRefresh()]. *)
Definition startAutoRefresh (cfg : auto_refresh_config) (w : world) : world :=
  if negb (ar_enabled cfg) then w
  else
    let w1 := start "dashboard" RefreshDashboard (ar_dashboard cfg) w in
    start "tickets" RefreshTickets (ar_tickets cfg) w1.

(** The [visibilitychange] listener; [hidden] is [document.hidden]. *)
Definition visibilitychange (cfg : auto_refresh_config) (hidden : bool) (w : world) : world :=
  if hidden then stopAll w else startAutoRefresh cfg w.

(** The timer part of the [beforeunload] listener. *)
Definition beforeunload (w : world) : world := stopAll w.

(** What the specification promises on return to focus: both tasks run
    again. *)
Definition resumed (cfg : auto_refresh_config) (w : world) : Prop :=
  timer_of "dashboard" w = Some (Timer RefreshDashboard (ar_dashboard cfg)) ∧
  timer_of "tickets" w = Some (Timer RefreshTickets (ar_tickets cfg)).

Lemma startAutoRefresh_coherent foreign cfg w :
  coherent foreign w → coherent foreign (startAutoRefresh cfg w).
Proof.
  intros Hw. unfold startAutoRefresh. destruct (negb (ar_enabled cfg)); [done|].
  by do 2 apply start_coherent.
Qed.

Lemma startAutoRefresh_resumed foreign cfg w :
  coherent foreign w → ar_enabled cfg = true → enabled (fst w) = true →
  resumed cfg (startAutoRefresh cfg w).
Proof.
  intros Hw Hc He. unfold startAutoRefresh, resumed. rewrite Hc. simpl.
  set (w1 := start "dashboard" RefreshDashboard (ar_dashboard cfg) w).
  assert (He1 : enabled (fst w1) = true)
    by (subst w1; by rewrite start_keeps_enabled).
  assert (Hw1 : coherent foreign w1) by (by apply start_coherent).
  split; [|by apply start_timer_of_same].
  destruct (start_timer_of_other foreign "tickets" RefreshTickets
              (ar_tickets cfg) w1 "dashboard" Hw1 He1) as [_ ->]; [done|].
  by apply start_timer_of_same.
Qed.

Lemma startAutoRefresh_disabled cfg w :
  ar_enabled cfg = false ∨ enabled (fst w) = false →
  startAutoRefresh cfg w = w.
Proof.
  intros H. unfold startAutoRefresh.
  destruct (ar_enabled cfg); simpl; [|done].
  destruct H as [?|He]; [done|].
  rewrite (start_disabled "dashboard") by done. by rewrite start_disabled.
Qed.

(** ** Suspension on loss of visibility, resumption on return *)

(** C9 (as amended).  When the page becomes hidden every timer of the
    registry is cancelled and the registry is empty, foreign timers
    being left alone.  When the page becomes visible again the dashboard
    and tickets tasks run with their configured periods, provided
    auto-refresh is enabled in the configuration and on the registry;
    otherwise nothing is started.  Apart from the visibility listener,
    [toggle] (when it disables the registry) and the [beforeunload]
    listener empty the registry as well. *)
Theorem visibility_suspends_and_resumes foreign cfg w :
  coherent foreign w →
  (let w1 := visibilitychange cfg true w in
   coherent foreign w1 ∧ registry w1 = ∅ ∧
   (∀ id, id ∈ foreign → timers w1 !! id = timers w !! id) ∧
   (∀ id, id ∉ foreign → timers w1 !! id = None)) ∧
  (let w2 := visibilitychange cfg false w in
   coherent foreign w2 ∧
   (ar_enabled cfg = true → enabled (fst w) = true → resumed cfg w2) ∧
   (ar_enabled cfg = false ∨ enabled (fst w) = false → w2 = w)) ∧
  (enabled (fst w) = true → registry (toggle w) = ∅) ∧
  registry (beforeunload w) = ∅.
Proof.
  intros Hw. split; [|split; [|split]].
  - split; [by apply stopAll_coherent|].
    split; [apply stopAll_registry|]. split.
    + intros id Hid. apply stopAll_timers_other. intros key Hk.
      by apply (coh_foreign _ _ Hw) in Hk.
    + intros id Hid. simpl.
      destruct (timers (stopAll w) !! id) as [tm|] eqn:E; [|done].
      pose proof (stopAll_timers_sub _ _ _ E) as E'.
      destruct (coh_no_orphan _ _ Hw id (ex_intro _ _ E')) as [?|[k Hk]]; [done|].
      by rewrite (stopAll_timers_registered _ _ _ Hk) in E.
  - split; [by apply startAutoRefresh_coherent|]. split.
    + intros. by eapply startAutoRefresh_resumed.
    + by apply startAutoRefresh_disabled.
  - intros He. destruct w as [[m e] tb]. simpl in He. by subst e.
  - apply stopAll_registry.
Qed.

(** Witness for [visibility_suspends_and_resumes]: the registry as the
    panel leaves it after start-up with the shipped configuration. *)
Lemma visibility_suspends_and_resumes_witness :
  let w := startAutoRefresh CONFIG_AUTO_REFRESH (create true Timers.empty) in
  coherent ∅ w ∧
  registry (visibilitychange CONFIG_AUTO_REFRESH true w) = ∅ ∧
  resumed CONFIG_AUTO_REFRESH
    (visibilitychange CONFIG_AUTO_REFRESH false
       (visibilitychange CONFIG_AUTO_REFRESH true w)).
Proof.
  assert (Hw : coherent ∅
            (startAutoRefresh CONFIG_AUTO_REFRESH (create true Timers.empty)))
    by apply startAutoRefresh_coherent, create_coherent.
  split; [exact Hw|]. split.
  - apply (visibility_suspends_and_resumes ∅ CONFIG_AUTO_REFRESH _ Hw).
  - apply (visibility_suspends_and_resumes ∅ CONFIG_AUTO_REFRESH
             (visibilitychange CONFIG_AUTO_REFRESH true
                (startAutoRefresh CONFIG_AUTO_REFRESH (create true Timers.empty)))).
    + by apply stopAll_coherent.
    + reflexivity.
    + reflexivity.
Defined.

(** C9 (as stated) fails once [toggle] has disabled the registry: the
    page is hidden and shown again, and no task is running. *)
Lemma visibility_resume_counterexample :
  let w := toggle (startAutoRefresh CONFIG_AUTO_REFRESH (create true Timers.empty)) in
  let w' := visibilitychange CONFIG_AUTO_REFRESH false
              (visibilitychange CONFIG_AUTO_REFRESH true w) in
  ¬ resumed CONFIG_AUTO_REFRESH w' ∧
  timer_of "dashboard" w' = None ∧ timer_of "tickets" w' = None.
Proof.
  split; [intros [H _]; vm_compute in H; discriminate | by vm_compute].
Qed.

End AdminPanel.

(* ===================================================================== *)
(** * LoadingManager (charts.js) *)
(* ===================================================================== *)

Module LoadingManager.

(** How the overlay element is rendered.  The code writes ['flex'] and
    ['none'] to [overlay.style.display]; before the first write the page
    decides, and either rendering is possible. *)
Inductive display := Flex | DisplayNone.

(** [this.loadingStates] and [this.overlay]; the overlay is [None] when
    [document.getElementById('loading-overlay')] found nothing. *)
Record t := Make { loadingStates : gset string; overlay : option display }.

(** [new LoadingManager()]. *)
Definition create (element : option display) : t := Make ∅ element.

Definition set_display (d : display) (o : option display) : option display :=
  match o with
  | Some _ => Some d
  | None => None
  end.

(** [show(key)]. *)
Definition show (key : string) (s : t) : t :=
  Make ({[key]} ∪ loadingStates s) (set_display Flex (overlay s)).

(** [hide(key)]. *)
Definition hide (key : string) (s : t) : t :=
  let states := loadingStates s ∖ {[key]} in
  Make states
       (if bool_decide (size states = 0) then set_display DisplayNone (overlay s)
        else overlay s).

(** [hideAll()]. *)
Definition hideAll (s : t) : t :=
  Make ∅ (set_display DisplayNone (overlay s)).

Inductive call := Show (key : string) | Hide (key : string) | HideAll.

Definition step (s : t) (c : call) : t :=
  match c with
  | Show key => show key s
  | Hide key => hide key s
  | HideAll => hideAll s
  end.

Definition run (calls : list call) (s : t) : t := foldl step s calls.

Definition visible (s : t) : Prop := overlay s = Some Flex.

(** The indicator agrees with the set of in-flight keys. *)
Definition consistent (s : t) : Prop :=
  is_Some (overlay s) ∧ (visible s ↔ loadingStates s ≠ ∅).

Lemma step_consistent s c :
  is_Some (overlay s) → (c = HideAll ∨ consistent s ∨ loadingStates s = ∅) →
  consistent (step s c).
Proof.
  intros [d Hd] Hs. destruct s as [ls o]. simpl in Hd. subst o.
  destruct c as [key|key|]; unfold consistent, visible; simpl.
  - split; [by eexists|]. split; [intros _|done]. set_solver.
  - case_bool_decide as Hsz; simpl.
    + split; [by eexists|]. apply size_empty_inv in Hsz.
      apply leibniz_equiv in Hsz. split; [done|]. by intros [].
    + split; [by eexists|].
      assert (Hne : ls ∖ {[key]} ≠ ∅) by (intros Heq; apply Hsz; by rewrite Heq).
      split; [done|]. intros _.
      destruct Hs as [?|[[_ Hc]|He]]; [done| |].
      * apply Hc. simpl. set_solver.
      * simpl in He. subst ls. exfalso. apply Hne. set_solver.
  - split; [by eexists|]. split; [done|]. by intros [].
Qed.

Lemma run_app calls1 calls2 s : run (calls1 ++ calls2) s = run calls2 (run calls1 s).
Proof. apply foldl_app. Qed.

Lemma run_consistent calls s : consistent s → consistent (run calls s).
Proof.
  revert s. induction calls as [|c calls IH]; intros s Hs; [done|].
  simpl. apply IH. apply step_consistent; [apply Hs | by right; left].
Qed.

(** ** The indicator is shown exactly while requests are in flight *)

(** A call that takes [key] out of the set. *)
Definition releases (key : string) (c : call) : Prop := c = Hide key ∨ c = HideAll.

(** [key] has been shown and not been released since. *)
Definition shown_last (key : string) (calls : list call) : Prop :=
  ∃ before after, calls = (before ++ Show key :: after)%list ∧
                  Forall (λ c, ¬ releases key c) after.

Lemma step_in_flight key s c :
  key ∈ loadingStates (step s c) ↔
  c = Show key ∨ (key ∈ loadingStates s ∧ ¬ releases key c).
Proof.
  unfold releases. destruct c as [k|k|]; simpl.
  - rewrite elem_of_union, elem_of_singleton. split.
    + intros [->|?]; [by left|]. right. split; [done|]. by intros [|].
    + intros [[= ->]|[? _]]; [by left | by right].
  - rewrite elem_of_difference, elem_of_singleton. split.
    + intros [? Hne]. right. split; [done|]. intros [[= ->]|]; done.
    + intros [|[? Hn]]; [done|]. split; [done|]. intros ->. apply Hn. by left.
  - split; [set_solver|]. intros [|[_ Hn]]; [done|]. destruct Hn. by right.
Qed.

Lemma run_in_flight key calls s :
  key ∈ loadingStates (run calls s) ↔
  (key ∈ loadingStates s ∧ Forall (λ c, ¬ releases key c) calls) ∨ shown_last key calls.
Proof.
  revert s. induction calls as [|c calls IH]; intros s.
  - split; [intros ?; left; by split|]. intros [[? _]|(b & a & Hc & _)]; [done|].
    by destruct b.
  - change (run (c :: calls) s) with (run calls (step s c)).
    rewrite IH, step_in_flight. split.
    + intros [[[->|[Hin Hc]] Hall]|(b & a & -> & Ha)].
      * right. by exists [], calls.
      * left. split; [done|]. by apply Forall_cons.
      * right. by exists (c :: b), a.
    + intros [[Hin Hall]|(b & a & Hc & Ha)].
      * apply Forall_cons in Hall as [Hc Hall]. left. split; [|done]. by right.
      * destruct b as [|c' b]; simpl in Hc; injection Hc as -> ->.
        -- left. split; [by left | done].
        -- right. by exists b, a.
Qed.

(** C2 (as amended).  After any sequence of [show], [hide] and
    [hideAll] calls on a new manager, a key is in the set of in-flight
    keys exactly when it has been shown and neither [hide] of that key
    nor [hideAll] has been called since.  When the page has the overlay
    element, then from an overlay that is hidden (or after at least one
    call, however the overlay was rendered at first) the overlay is
    visible if and only if that set is non-empty, and hiding a key while
    another key remains in the set leaves the overlay visible.  When the
    page has no overlay element, nothing is ever visible. *)
Theorem overlay_visible_iff_loading (element : option display) (calls : list call) :
  let s := run calls (create element) in
  (∀ key, key ∈ loadingStates s ↔ shown_last key calls) ∧
  match element with
  | None => ¬ visible s
  | Some d0 =>
    calls ≠ [] ∨ d0 = DisplayNone →
    (visible s ↔ loadingStates s ≠ ∅) ∧
    (∀ key other, other ∈ loadingStates s → key ≠ other →
       visible (hide key s) ∧ other ∈ loadingStates (hide key s) ∧
       key ∉ loadingStates (hide key s))
  end.
Proof.
  intros s. split.
  { intros key. subst s. rewrite run_in_flight. split; [|by right].
    intros [[Hin _]|?]; [|done]. simpl in Hin. set_solver. }
  destruct element as [d0|].
  - intros H0.
    assert (Hs : consistent s).
    { subst s. destruct calls as [|c calls].
      - destruct H0 as [?| ->]; [done|]. split; [by eexists|]. by split.
      - simpl. apply run_consistent. apply step_consistent; [by eexists|].
        right; right. done. }
    split; [apply Hs|]. intros key other Hin Hne.
    assert (Hk : consistent (step s (Hide key))).
    { apply step_consistent; [apply Hs | by right; left]. }
    simpl in Hk. assert (other ∈ loadingStates (hide key s)) by (simpl; set_solver).
    split; [|split; [done | simpl; set_solver]]. apply Hk. set_solver.
  - assert (Hn : ∀ cs s0, overlay s0 = None → overlay (run cs s0) = None).
    { induction cs as [|c cs IH]; intros s0 H0; [done|]. apply IH.
      destruct c; simpl; rewrite H0; simpl; [done| |done]. by case_bool_decide. }
    unfold visible. subst s. by rewrite Hn.
Qed.

(** Witness for [overlay_visible_iff_loading]: two views load at once
    and the first one finishes; "tickets" is still in flight and the
    overlay still visible, and it is hidden only when "tickets" has
    finished too. *)
Lemma overlay_visible_iff_loading_witness :
  let s := run [Show "dashboard"; Show "tickets"; Hide "dashboard"]
               (create (Some DisplayNone)) in
  "tickets" ∈ loadingStates s ∧ ("dashboard" ∉ loadingStates s) ∧
  visible s ∧ ¬ visible (hide "tickets" s).
Proof.
  cbv zeta.
  destruct (overlay_visible_iff_loading (Some DisplayNone)
              [Show "dashboard"; Show "tickets"; Hide "dashboard"])
    as [Hin Hvis].
  destruct (Hvis (or_intror eq_refl)) as [Hiff _].
  assert (Ht : "tickets" ∈ loadingStates
                 (run [Show "dashboard"; Show "tickets"; Hide "dashboard"]
                      (create (Some DisplayNone)))).
  { apply Hin. exists [Show "dashboard"], [Hide "dashboard"]. split; [done|].
    apply Forall_singleton. by intros [|]. }
  split; [exact Ht|]. split.
  { rewrite Hin. intros (b & a & Hc & Ha).
    destruct b as [|? [|? [|? [|? b]]]]; simplify_eq/=.
    apply Forall_cons in Ha as [_ Ha]. apply Forall_cons in Ha as [Ha _].
    apply Ha. by left. }
  split; [|by vm_compute].
  apply Hiff. intros Heq. rewrite Heq in Ht. by apply elem_of_empty in Ht.
Defined.

(** C2 (as stated) fails on a page without the overlay element: the
    guard [if (this.overlay)] skips the display, so a key is in flight
    and nothing is visible.  It also fails before the first call on a
    page that renders the overlay at first. *)
Lemma overlay_missing_counterexample :
  (let s := run [Show "tickets"] (create None) in
   "tickets" ∈ loadingStates s ∧ ¬ (visible s ↔ loadingStates s ≠ ∅)) ∧
  (let s := run [] (create (Some Flex)) in
   ¬ (visible s ↔ loadingStates s ≠ ∅)).
Proof.
  split; cbv zeta.
  - split; [set_solver|]. intros [_ H]. assert (Hv : visible (run [Show "tickets"] (create None))).
    { apply H. simpl. set_solver. }
    by vm_compute in Hv.
  - intros [H _]. by apply H.
Qed.

End LoadingManager.

(* ===================================================================== *)
(** * AdminAPI.request, ErrorHandler and APIWrapper.execute (charts.js) *)
(* ===================================================================== *)

Module Api.

(** A value that a rejected promise or a [throw] carries. *)
Inductive thrown :=
| ErrorObject (message : string)   (* an [Error], or any object with [message] *)
| ThrownString (s : string)
| ThrownOther                      (* any other value that is not null or undefined *)
| ThrownNullish.                   (* [null] or [undefined] *)

Inductive outcome (A : Type) :=
| Returns (v : A)
| Throws (e : thrown).
Arguments Returns {A} v.
Arguments Throws {A} e.

Inductive console_entry :=
| ConsoleError (text : string) (e : thrown)
| ConsoleLog (text : string) (e : thrown) (context : string).

(** The part of the page that the wrapper acts on. *)
Record world := World {
  loading : LoadingManager.t;
  notifications : list (string * string);   (* message, type *)
  console : list console_entry;
  hostname : string
}.

Definition with_loading (f : LoadingManager.t → LoadingManager.t) (w : world) : world :=
  World (f (loading w)) (notifications w) (console w) (hostname w).

(** [Utils.showNotification(message, type)]: a notification element is
    appended to the page. *)
Definition showNotification (message type : string) (w : world) : world :=
  World (loading w) (notifications w ++ [(message, type)])%list (console w) (hostname w).

Definition log (entry : console_entry) (w : world) : world :=
  World (loading w) (notifications w) (console w ++ [entry])%list (hostname w).

(** Reading a property of [null] or [undefined] raises a [TypeError]. *)
Definition TypeError_reading (property : string) : thrown :=
  ErrorObject ("Cannot read properties of null (reading '" +:+ property +:+ "')").

(** The message [ErrorHandler.handle] settles on. *)
Definition handled_message (e : thrown) : string :=
  match e with
  | ErrorObject m => if bool_decide (m = "") then "An unexpected error occurred" else m
  | ThrownString s => s
  | ThrownOther | ThrownNullish => "An unexpected error occurred"
  end.

(** [ErrorHandler.handle(error, context)]; the result is [Some] of what
    the handler itself throws, [None] when it completes. *)
Definition handle (e : thrown) (context : string) (w : world) : option thrown * world :=
  let w1 := log (ConsoleError ("Error in " +:+ context +:+ ":") e) w in
  match e with
  | ThrownNullish => (Some (TypeError_reading "message"), w1)
  | _ =>
    let w2 := showNotification (handled_message e) "error" w1 in
    let w3 := if bool_decide (hostname w2 = "localhost") then w2
              else log (ConsoleLog "Would log to external service:" e context) w2 in
    (None, w3)
  end.

(** [APIWrapper.execute(apiCall, loadingKey, showLoading)].  The call is
    given the page as [execute] leaves it before awaiting and returns
    the page as it is when the promise settles. *)
Definition execute {A} (apiCall : world → outcome A * world)
    (loadingKey : string) (showLoading : bool) (w : world) : outcome A * world :=
  let w1 := if showLoading then with_loading (LoadingManager.show loadingKey) w else w in
  let '(r, w2) := apiCall w1 in
  let '(r', w3) :=
    match r with
    | Returns v => (Returns v, w2)
    | Throws e =>
      match handle e loadingKey w2 with
      | (None, w') => (Throws e, w')
      | (Some e', w') => (Throws e', w')
      end
    end in
  let w4 := if showLoading then with_loading (LoadingManager.hide loadingKey) w3 else w3 in
  (r', w4).

(** ** AdminAPI.request *)

(** [errorData.detail]: absent or falsy, or a truthy value with its
    string conversion. *)
Inductive detail := DetailFalsy | DetailTruthy (text : string).

Inductive json := JsonNull | JsonData (d : detail) (payload : string).

Inductive parsed (A : Type) := Parsed (v : A) | ParseFails (message : string).
Arguments Parsed {A} v.
Arguments ParseFails {A} message.

Record response := Response {
  ok : bool;
  status : N;
  content_type : option string;
  body_json : parsed json;     (* what [response.json()] settles to *)
  body_text : parsed string    (* what [response.text()] settles to *)
}.

Inductive fetched := FetchRejects (message : string) | FetchResolves (r : response).

Inductive data := Json (v : json) | Text (s : string).

(** [contentType.includes('application/json')]. *)
Definition includes (needle hay : string) : bool :=
  match String.index 0 needle hay with
  | Some _ => true
  | None => false
  end.

(** What the [try] block of [request] does with the fetch. *)
Definition request_body (f : fetched) : outcome data :=
  match f with
  | FetchRejects m => Throws (ErrorObject m)
  | FetchResolves r =>
    if negb (ok r) then
      match body_json r with
      | ParseFails _ =>          (* [.catch(() => ({}))] *)
        Throws (ErrorObject ("HTTP error! status: " +:+ pretty (status r)))
      | Parsed JsonNull => Throws (TypeError_reading "detail")
      | Parsed (JsonData DetailFalsy _) =>
        Throws (ErrorObject ("HTTP error! status: " +:+ pretty (status r)))
      | Parsed (JsonData (DetailTruthy text) _) => Throws (ErrorObject text)
      end
    else
      match content_type r with
      | Some ct =>
        if includes "application/json" ct then
          match body_json r with
          | Parsed v => Returns (Json v)
          | ParseFails m => Throws (ErrorObject m)
          end
        else
          match body_text r with
          | Parsed s => Returns (Text s)
          | ParseFails m => Throws (ErrorObject m)
          end
      | None =>
        match body_text r with
        | Parsed s => Returns (Text s)
        | ParseFails m => Throws (ErrorObject m)
        end
      end
  end.

(** [AdminAPI.request(endpoint, options)], given what [fetch] does. *)
Definition request (endpoint : string) (f : fetched) (w : world) : outcome data * world :=
  match request_body f with
  | Returns v => (Returns v, w)
  | Throws e => (Throws e, log (ConsoleError ("API request failed: " +:+ endpoint) e) w)
  end.

(** [APIWrapper.getDashboard], [getTickets], ... : [execute] around a
    request, with the loading key of the method. *)
Definition wrapped (endpoint loadingKey : string) (f : fetched) (w : world) : outcome data * world :=
  execute (request endpoint f) loadingKey true w.

(** [APIWrapper.healthCheck()]. *)
Definition healthCheck (f : fetched) (w : world) : outcome data * world :=
  execute (request "/health" f) "health-check" false w.

(** What the specification promises on the loading set: whether
    [loadingKey] is in flight is the same after the call as before. *)
Definition membership_restored {A} (apiCall : world → outcome A * world)
    (loadingKey : string) (w : world) : Prop :=
  loadingKey ∈ LoadingManager.loadingStates (loading w) ↔
  loadingKey ∈ LoadingManager.loadingStates (loading (snd (execute apiCall loadingKey true w))).

(** ** Auxiliary facts *)

Lemma request_outcome endpoint f w : fst (request endpoint f w) = request_body f.
Proof. unfold request. by destruct (request_body f). Qed.

(** Every failure of a request is an [Error] object. *)
Lemma request_throws_error_object f e :
  request_body f = Throws e → ∃ m, e = ErrorObject m.
Proof.
  unfold request_body, TypeError_reading. intros H.
  repeat (case_match; simplify_eq/=); eauto.
Qed.


Lemma handle_loading e context w : loading (snd (handle e context w)) = loading w.
Proof. unfold handle. destruct e; simpl; try case_bool_decide; done. Qed.



(** ** Failures are shown and thrown again *)



(** ** The loading set across a call *)

(** C8 (as amended).  With [showLoading] set, [loadingKey] is in the
    loading set that the call sees, and when the call has settled, by
    returning or by throwing, the loading set is the one the call left
    minus [loadingKey].  So if nothing else touched the set meanwhile,
    it ends as it began minus [loadingKey]: it is restored when
    [loadingKey] was not in flight before, and loses [loadingKey]
    otherwise.  Without [showLoading] the loading state is left as the
    call left it. *)
Theorem execute_loading_lifecycle {A} (apiCall : world → outcome A * world)
    loadingKey w :
  let w1 := with_loading (LoadingManager.show loadingKey) w in
  let after := LoadingManager.loadingStates
                 (loading (snd (execute apiCall loadingKey true w))) in
  loadingKey ∈ LoadingManager.loadingStates (loading w1) ∧
  after = LoadingManager.loadingStates (loading (snd (apiCall w1))) ∖ {[loadingKey]} ∧
  (loadingKey ∉ after) ∧
  (loading (snd (apiCall w1)) = loading w1 →
     after = LoadingManager.loadingStates (loading w) ∖ {[loadingKey]} ∧
     (loadingKey ∉ LoadingManager.loadingStates (loading w) →
        after = LoadingManager.loadingStates (loading w))) ∧
  loading (snd (execute apiCall loadingKey false w)) = loading (snd (apiCall w)).
Proof.
  intros w1 after.
  assert (Hafter : after
    = LoadingManager.loadingStates (loading (snd (apiCall w1))) ∖ {[loadingKey]}).
  { subst after. unfold execute. fold w1.
    destruct (apiCall w1) as [[v|e] w2]; simpl; [done|].
    pose proof (handle_loading e loadingKey w2) as Hl.
    destruct (handle e loadingKey w2) as [[e'|] w3]; simpl in *; by rewrite Hl. }
  split; [simpl; set_solver|]. split; [done|].
  split; [rewrite Hafter; set_solver|]. split.
  - intros Hframe. rewrite Hafter, Hframe. simpl. split; set_solver.
  - unfold execute. destruct (apiCall w) as [[v|e] w2]; simpl; [done|].
    pose proof (handle_loading e loadingKey w2) as Hl.
    by destruct (handle e loadingKey w2) as [[e'|] w3].
Qed.

(** Witness for [execute_loading_lifecycle]: a ticket query that fails,
    with nothing else in flight. *)
Lemma execute_loading_lifecycle_witness :
  let w := World (LoadingManager.create (Some LoadingManager.DisplayNone)) [] [] "localhost" in
  LoadingManager.loadingStates
    (loading (snd (execute (request "/admin/tickets" (FetchRejects "Failed to fetch"))
                     "tickets" true w)))
  = LoadingManager.loadingStates (loading w).
Proof.
  apply (execute_loading_lifecycle
           (request "/admin/tickets" (FetchRejects "Failed to fetch")) "tickets"
           (World (LoadingManager.create (Some LoadingManager.DisplayNone)) [] [] "localhost")).
  - reflexivity.
  - simpl. set_solver.
Defined.

(** C8 (as stated) fails when [loadingKey] is already in flight, as it
    is when [AdminPanel.init] loads the dashboard twice: the call that
    settles first removes the key, so its membership is not restored and
    the overlay is hidden while the other call is pending. *)
Lemma membership_not_restored_counterexample :
  let w0 := World (LoadingManager.create (Some LoadingManager.DisplayNone)) [] [] "localhost" in
  let w := with_loading (LoadingManager.show "dashboard") w0 in
  let ok := FetchResolves (Response true 200 (Some "application/json")
                             (Parsed (JsonData DetailFalsy "{}")) (Parsed "{}")) in
  ¬ membership_restored (request "/admin/dashboard" ok) "dashboard" w ∧
  LoadingManager.overlay
    (loading (snd (execute (request "/admin/dashboard" ok) "dashboard" true w)))
  = Some LoadingManager.DisplayNone.
Proof.
  split; [|by vm_compute].
  intros [H _]. simpl in H.
  assert (Hin : "dashboard" ∈ ({[ "dashboard" ]} ∪ ∅ : gset string)) by set_solver.
  apply H in Hin. set_solver.
Qed.

End Api.

(* ===================================================================== *)
(** * ConnectionMonitor (charts.js) *)
(* ===================================================================== *)

Module ConnectionMonitor.
Import Api.

(** [this.isOnline] and [this.lastCheck]. *)
Record t := Make { isOnline : bool; lastCheck : N }.

(** The monitor together with the page it notifies. *)
Definition state : Type := t * world.

(** What can happen to the monitor: the two window events, and a run of
    the periodic probe at time [now] with what [fetch] did. *)
Inductive event :=
| Online
| Offline
| Probe (f : fetched) (now : N).

(** The ['online'] listener. *)
Definition on_online (s : state) : state :=
  (Make true (lastCheck (fst s)),
   showNotification "Connection restored" "success" (snd s)).

(** The ['offline'] listener. *)
Definition on_offline (s : state) : state :=
  (Make false (lastCheck (fst s)),
   showNotification "Connection lost" "warning" (snd s)).

(** [checkConnection()]. *)
Definition checkConnection (f : fetched) (now : N) (s : state) : state :=
  let '(m, w) := s in
  let '(r, w1) := healthCheck f w in
  let '(online, w2) :=
    match r with
    | Returns _ =>
      if negb (isOnline m)
      then (true, showNotification "Connection restored" "success" w1)
      else (isOnline m, w1)
    | Throws _ =>
      if isOnline m
      then (false, showNotification "Connection issues detected" "warning" w1)
      else (isOnline m, w1)
    end in
  (Make online now, w2).

Definition step (s : state) (ev : event) : state :=
  match ev with
  | Online => on_online s
  | Offline => on_offline s
  | Probe f now => checkConnection f now s
  end.

Definition run (evs : list event) (s : state) : state := foldl step s evs.

(** How often the connectivity state changes along a run. *)
Fixpoint transitions (evs : list event) (s : state) : nat :=
  match evs with
  | [] => 0
  | ev :: rest =>
    let s' := step s ev in
    (if bool_decide (isOnline (fst s') = isOnline (fst s)) then 0 else 1)
    + transitions rest s'
  end.

(** The notices shown along a run. *)
Definition notices (evs : list event) (s : state) : list (string * string) :=
  drop (length (notifications (snd s))) (notifications (snd (run evs s))).

(** [new ConnectionMonitor()] with [navigator.onLine = online]. *)
Definition create (online : bool) (now : N) (w : world) : state := (Make online now, w).

Definition page : world :=
  World (LoadingManager.create (Some LoadingManager.DisplayNone)) [] [] "localhost".

Definition unreachable : fetched := FetchRejects "Failed to fetch".

(** ** Notices per transition *)

(** C5 (what the code does).  The failed probe is reported twice, by
    [ErrorHandler.handle] inside [healthCheck] and by the monitor, and
    the ['offline'] event that follows is reported again although the
    monitor is offline already: three notices for one transition.  A
    probe that keeps failing adds one notice per check. *)
Theorem notices_exceed_transitions :
  let s := create true 0 page in
  transitions [Probe unreachable 30000; Offline] s = 1 ∧
  notices [Probe unreachable 30000; Offline] s
  = [("Failed to fetch", "error");
     ("Connection issues detected", "warning");
     ("Connection lost", "warning")] ∧
  transitions [Probe unreachable 30000; Probe unreachable 60000] s = 1 ∧
  notices [Probe unreachable 30000; Probe unreachable 60000] s
  = [("Failed to fetch", "error");
     ("Connection issues detected", "warning");
     ("Failed to fetch", "error")].
Proof. repeat split; reflexivity. Qed.

End ConnectionMonitor.

(* ===================================================================== *)
(** * Utils.debounce (app.js) *)
(* ===================================================================== *)

Module Debounce.

Section Debounce.
(** The arguments a call of the wrapper passes on. *)
Context {A : Type}.

(** A pending timeout running the closure [later] of a call with [args]. *)
Record timeout_timer := TimeoutTimer { handle : positive; due : N; args : A }.

(** What [Utils.debounce(func, wait)] sets up: the closure variable
    [timeout], with the pending timeouts of the window, the clock, and
    the invocations of [func] so far with their times. *)
Record state := State {
  now : N;
  timeout : option positive;
  pending : list timeout_timer;
  next_handle : positive;
  invoked : list (N * A)
}.

Definition init : state := State 0 None [] 1 [].

(** [clearTimeout(timeout)]; clearing [undefined] or a handle that has
    fired does nothing. *)
Definition clearTimeout (id : option positive) (s : state) : state :=
  match id with
  | Some i =>
    State (now s) (timeout s) (filter (λ tm, handle tm ≠ i) (pending s))
          (next_handle s) (invoked s)
  | None => s
  end.

(** [setTimeout(later, wait)] for the [later] of a call with [a]. *)
Definition setTimeout (a : A) (wait : N) (s : state) : positive * state :=
  (next_handle s,
   State (now s) (timeout s)
         (pending s ++ [TimeoutTimer (next_handle s) (now s + wait) a])%list
         (Pos.succ (next_handle s)) (invoked s)).

(** The closure [later] of a call with [a]:
    [clearTimeout(timeout); func(...args)]. *)
Definition later (a : A) (s : state) : state :=
  let s1 := clearTimeout (timeout s) s in
  State (now s1) (timeout s1) (pending s1) (next_handle s1)
        (invoked s1 ++ [(now s1, a)])%list.

(** The timeout [tm] fires: the clock is at [due tm], the timeout is no
    longer pending, and its [later] runs. *)
Definition fire (tm : timeout_timer) (s : state) : state :=
  later (args tm)
        (State (due tm) (timeout s)
               (filter (λ x, handle x ≠ handle tm) (pending s))
               (next_handle s) (invoked s)).

Definition earlier (x y : timeout_timer) : timeout_timer :=
  if (due y <? due x)%N then y else x.

(** The pending timeout that fires next, among those due by [t]. *)
Definition next_due (t : N) (s : state) : option timeout_timer :=
  match filter (λ tm, (due tm ≤ t)%N) (pending s) with
  | [] => None
  | x :: xs => Some (foldl earlier x xs)
  end.

Fixpoint run_timers (fuel : nat) (t : N) (s : state) : state :=
  match fuel with
  | O => s
  | S n =>
    match next_due t s with
    | Some tm => run_timers n t (fire tm s)
    | None => s
    end
  end.

(** Time passes until [t]: every timeout due by then fires, in order.
    Firing schedules nothing, so one round per pending timeout is enough. *)
Definition advance (t : N) (s : state) : state :=
  let s' := run_timers (length (pending s)) t s in
  State (N.max (now s') t) (timeout s') (pending s') (next_handle s') (invoked s').

(** Time passes until a call is made at [t]: the timeouts due before
    [t] have fired.  A timeout that falls due at [t] itself is still
    pending, since a timeout never runs while a task does: two calls
    made by one task, or a call made at the very time the timeout of the
    call before falls due, find that timeout pending. *)
Definition advance_before (t : N) (s : state) : state :=
  let s' := match t with
            | 0%N => s
            | _ => advance (t - 1) s
            end in
  State (N.max (now s') t) (timeout s') (pending s') (next_handle s') (invoked s').

(** A call [executedFunction(...c.2)] of the wrapper at time [c.1]. *)
Definition executedFunction (wait : N) (s : state) (c : N * A) : state :=
  let s1 := advance_before c.1 s in
  let s2 := clearTimeout (timeout s1) s1 in
  let '(id, s3) := setTimeout c.2 wait s2 in
  State (now s3) (Some id) (pending s3) (next_handle s3) (invoked s3).

Definition run_calls (wait : N) (calls : list (N * A)) (s : state) : state :=
  foldl (executedFunction wait) s calls.

(** Calls in time order, each less than [wait] after the one before;
    [t0] is the time of the call before the first of [calls]. *)
Fixpoint chain (wait t0 : N) (calls : list (N * A)) : Prop :=
  match calls with
  | [] => True
  | c :: rest => (t0 ≤ c.1 < t0 + wait)%N ∧ chain wait c.1 rest
  end.

Definition burst (wait : N) (first : N * A) (rest : list (N * A)) : Prop :=
  chain wait first.1 rest.

(** A call has been made at [c.1] and its timeout is the only one pending. *)
Definition armed (wait : N) (c : N * A) (s : state) : Prop :=
  ∃ id, now s = c.1 ∧ timeout s = Some id ∧
        pending s = [TimeoutTimer id (c.1 + wait) c.2] ∧ invoked s = [].

Lemma advance_armed_idle wait c s t :
  armed wait c s → (t < c.1 + wait)%N →
  advance t s = State (N.max c.1 t) (timeout s) (pending s) (next_handle s) (invoked s).
Proof.
  intros (id & Hnow & Hto & Hp & Hi) Ht. unfold advance. rewrite Hp. simpl.
  unfold next_due. rewrite Hp. rewrite filter_cons_False by (simpl; lia).
  rewrite filter_nil. simpl. by rewrite Hnow, Hp.
Qed.

Lemma advance_before_armed wait c s t :
  armed wait c s → (c.1 ≤ t ≤ c.1 + wait)%N →
  advance_before t s = State t (timeout s) (pending s) (next_handle s) (invoked s).
Proof.
  intros Hs Ht. unfold advance_before. destruct t as [|p] eqn:Et.
  - destruct Hs as (id & Hnow & _). rewrite Hnow. f_equal. lia.
  - rewrite (advance_armed_idle wait c s) by (done || lia). simpl. f_equal. lia.
Qed.

Lemma advance_armed_early wait c s t :
  armed wait c s → (t < c.1 + wait)%N → invoked (advance t s) = [].
Proof.
  intros (id & Hnow & Hto & Hp & Hi) Ht. unfold advance. rewrite Hp. simpl.
  unfold next_due. rewrite Hp. rewrite filter_cons_False by (simpl; lia).
  by rewrite filter_nil.
Qed.

Lemma advance_armed_after wait c s t :
  armed wait c s → (c.1 + wait ≤ t)%N →
  advance t s = State t (timeout s) [] (next_handle s) [(c.1 + wait, c.2)%N].
Proof.
  intros (id & Hnow & Hto & Hp & Hi) Ht. unfold advance. rewrite Hp. simpl.
  unfold next_due. rewrite Hp. rewrite filter_cons_True by (simpl; lia).
  rewrite filter_nil. simpl. unfold fire, later. simpl. rewrite Hp, Hto, Hi. simpl.
  rewrite filter_cons_False by (simpl; naive_solver). rewrite !filter_nil.
  f_equal. lia.
Qed.

Lemma call_armed wait c c' s :
  armed wait c s → (c.1 ≤ c'.1 < c.1 + wait)%N →
  armed wait c' (executedFunction wait s c').
Proof.
  intros Hs Ht. unfold executedFunction.
  rewrite (advance_before_armed wait c s) by (done || lia).
  destruct Hs as (id & Hnow & Hto & Hp & Hi). simpl. rewrite Hto. simpl.
  rewrite Hp. rewrite filter_cons_False by (simpl; naive_solver).
  rewrite filter_nil. simpl. eexists. by repeat split.
Qed.

Lemma advance_before_init t : advance_before t init = State t None [] 1 [].
Proof.
  unfold advance_before. destruct t as [|p]; [done|].
  unfold advance. simpl. f_equal. lia.
Qed.

Lemma call_init_armed wait c : armed wait c (executedFunction wait init c).
Proof.
  unfold executedFunction. rewrite advance_before_init. simpl.
  eexists. by repeat split.
Qed.

Lemma last_default (x : N * A) rest c c' :
  List.last (x :: rest) c = List.last (x :: rest) c'.
Proof.
  revert x. induction rest as [|y rest IH]; intros x; [done|].
  change (List.last (y :: rest) c = List.last (y :: rest) c'). apply IH.
Qed.

Lemma last_cons (c c' : N * A) rest :
  List.last (c' :: rest) c = List.last rest c'.
Proof. destruct rest as [|x rest]; [done|]. apply (last_default x rest). Qed.

Lemma run_calls_armed wait rest c s :
  armed wait c s → chain wait c.1 rest →
  armed wait (List.last rest c) (run_calls wait rest s).
Proof.
  revert c s. induction rest as [|c' rest IH]; intros c s Hs Hch; [done|].
  destruct Hch as [Ht Hch].
  change (run_calls wait (c' :: rest) s)
    with (run_calls wait rest (executedFunction wait s c')).
  rewrite last_cons. apply IH; [by eapply call_armed | done].
Qed.

(** ** A burst of calls runs the function once *)

(** C3.  After a non-empty burst of calls of the wrapper, each less than
    [wait] after the previous one, [func] has not run before [wait] has
    passed since the last call, and from then on it has run exactly
    once, at that time and with the arguments of the last call. *)
Theorem debounce_trailing_edge (wait : N) (first : N * A) (rest : list (N * A)) (T : N) :
  burst wait first rest →
  let last := List.last rest first in
  invoked (advance T (run_calls wait (first :: rest) init))
  = if (last.1 + wait <=? T)%N then [((last.1 + wait)%N, last.2)] else [].
Proof.
  intros Hb last.
  assert (Ha : armed wait last (run_calls wait (first :: rest) init)).
  { apply (run_calls_armed wait rest first); [apply call_init_armed | done]. }
  destruct (N.leb_spec (last.1 + wait) T) as [Hle|Hlt].
  - by rewrite (advance_armed_after wait last).
  - by apply (advance_armed_early wait last).
Qed.

End Debounce.

(** Witness for [debounce_trailing_edge]: three keystrokes within the
    500 ms of [setupFilterListeners]; the query runs once, at 800 ms. *)
Lemma debounce_trailing_edge_witness :
  burst 500 (0%N, "a") [(200%N, "ab"); (300%N, "abc")] ∧
  invoked (advance 2000 (run_calls 500 [(0%N, "a"); (200%N, "ab"); (300%N, "abc")] init))
  = [(800%N, "abc")].
Proof.
  split; [unfold burst; simpl; lia|].
  apply (debounce_trailing_edge 500 (0%N, "a") [(200%N, "ab"); (300%N, "abc")] 2000).
  unfold burst; simpl; lia.
Defined.

End Debounce.

(* ===================================================================== *)
(** * Utils.formatPercentage (app.js) *)
(* ===================================================================== *)

Module Format.
Import Api.
#[local] Arguments String.append !_ _ / : simpl nomatch.

(** A Number: not-a-number, an infinity, or a finite value.  Every
    finite double is a rational, and [toFixed] rounds its exact value. *)
Inductive number := NaN | Infinity | NegInfinity | Finite (q : Q).

(** What [formatPercentage] may be handed. *)
Inductive value :=
| Null
| Undefined
| Number (n : number)
| Other.                        (* a value without a [toFixed] method *)

Fixpoint zeros (k : nat) : string :=
  match k with
  | O => ""
  | S k' => String "0"%char (zeros k')
  end.

(** The first [k] characters of [s] and the rest. *)
Fixpoint split_at (k : nat) (s : string) : string * string :=
  match k, s with
  | S k', String c s' => let '(a, b) := split_at k' s' in (String c a, b)
  | _, _ => ("", s)
  end.

Definition ten21 : Q := inject_Z (10 ^ 21).

Section ToFixed.
(** [Number::toString] on magnitudes of at least 10^21, where [toFixed]
    defers to it. *)
Variable NumberToString : Q → string.

(** [Number.prototype.toFixed(f)] for [0 <= f <= 100]. *)
Definition toFixed (f : nat) (x : number) : string :=
  match x with
  | NaN => "NaN"
  | Infinity => "Infinity"
  | NegInfinity => "-Infinity"
  | Finite q =>
    let s := if Qle_bool 0 q then "" else "-" in
    let x := Qabs q in
    if Qle_bool ten21 x then s +:+ NumberToString x
    else
      (* the integer [n] with [n / 10^f] nearest to [x], the larger on a tie *)
      let n := Z.to_N (Qfloor (x * inject_Z (10 ^ Z.of_nat f) + (1 # 2))) in
      let m := pretty n in
      let m :=
        if decide (f = O) then m
        else
          let k := String.length m in
          let m := if decide (k ≤ f)%nat then zeros (f + 1 - k) +:+ m else m in
          let k := String.length m in
          let '(a, b) := split_at (k - f) m in
          a +:+ "." +:+ b in
      s +:+ m
  end.

(** [Utils.formatPercentage(num, decimals = 1)]. *)
Definition formatPercentage (num : value) (decimals : option nat) : outcome string :=
  match num with
  | Null | Undefined => Returns "0%"
  | Number x =>
    let f := default 1%nat decimals in
    if decide (f ≤ 100)%nat then Returns (toFixed f x +:+ "%")
    else Throws (ErrorObject "toFixed() digits argument must be between 0 and 100")
  | Other => Throws (ErrorObject "num.toFixed is not a function")
  end.

End ToFixed.

(** ** Text with one decimal *)

Definition is_digit (c : ascii) : bool :=
  bool_decide (48 ≤ nat_of_ascii c ≤ 57)%nat.

(** [s] is one digit followed by the percent sign. *)
Definition is_digit_percent (s : string) : bool :=
  match s with
  | String d (String "%"%char "") => is_digit d
  | _ => false
  end.

(** [s] is digits, at least [seen] being true, a point, one digit and
    the percent sign. *)
Fixpoint is_digits_point_digit_percent (seen : bool) (s : string) : bool :=
  match s with
  | String c s' =>
    if is_digit c then is_digits_point_digit_percent true s'
    else if bool_decide (c = "."%char) then seen && is_digit_percent s'
    else false
  | "" => false
  end.

(** [s] is a decimal numeral with exactly one digit after the point,
    followed by the percent sign. *)
Definition is_one_decimal_percent (s : string) : bool :=
  match s with
  | String c s' =>
    if bool_decide (c = "-"%char) then is_digits_point_digit_percent false s'
    else is_digits_point_digit_percent false s
  | "" => false
  end.

(** The numeral of [tenths / 10] with one decimal. *)
Definition one_decimal (negative : bool) (tenths : N) : string :=
  (if negative then "-" else "")
  +:+ pretty (tenths `div` 10)%N +:+ "." +:+ pretty (tenths `mod` 10)%N.

Fixpoint all_digits (s : string) : bool :=
  match s with
  | "" => true
  | String c s' => is_digit c && all_digits s'
  end.

(** ** Auxiliary facts on strings and numerals *)

Lemma append_assoc (a b c : string) : (a +:+ b) +:+ c = a +:+ (b +:+ c).
Proof. induction a as [|x a IH]; simpl; [done | by rewrite IH]. Qed.

Lemma length_append (a b : string) :
  String.length (a +:+ b) = (String.length a + String.length b)%nat.
Proof. induction a as [|x a IH]; simpl; [done | by rewrite IH]. Qed.

Lemma split_at_append (a b : string) : split_at (String.length a) (a +:+ b) = (a, b).
Proof.
  induction a as [|x a IH]; simpl.
  - by destruct b.
  - by rewrite IH.
Qed.

Lemma all_digits_append (a b : string) :
  all_digits (a +:+ b) = all_digits a && all_digits b.
Proof.
  induction a as [|x a IH]; simpl; [done|]. rewrite IH. by rewrite andb_assoc.
Qed.

Lemma pretty_N_go_append (x : N) (s : string) :
  pretty_N_go x s = pretty_N_go x "" +:+ s.
Proof.
  revert s. induction (N.lt_wf_0 x) as [x _ IH]; intros s.
  destruct (decide (x = 0)%N) as [->|Hx]; [done|].
  rewrite !(pretty_N_go_step x) by lia.
  assert (Hlt : (x `div` 10 < x)%N) by (apply N.div_lt; lia).
  rewrite (IH _ Hlt (String _ s)), (IH _ Hlt (String _ "")).
  by rewrite append_assoc.
Qed.

Lemma pretty_digit (n : N) :
  (n < 10)%N → pretty n = String (pretty_N_char n) "".
Proof.
  intros Hn. unfold pretty, pretty_N. case_decide as H0; [by subst|].
  rewrite pretty_N_go_step by lia.
  rewrite N.div_small, N.mod_small by done. by rewrite pretty_N_go_0.
Qed.

Lemma pretty_step (n : N) :
  (10 ≤ n)%N →
  pretty n = pretty (n `div` 10)%N +:+ String (pretty_N_char (n `mod` 10)%N) "".
Proof.
  intros Hn. unfold pretty, pretty_N.
  assert (0 < n `div` 10)%N by (apply N.div_str_pos; lia).
  rewrite !decide_False by lia.
  rewrite pretty_N_go_step by lia. apply pretty_N_go_append.
Qed.

Lemma pretty_N_char_digit (n : N) : is_digit (pretty_N_char n) = true.
Proof. unfold pretty_N_char. by repeat case_match. Qed.

Lemma pretty_all_digits (n : N) : all_digits (pretty n) = true ∧ pretty n ≠ "".
Proof.
  induction (N.lt_wf_0 n) as [n _ IH].
  destruct (decide (n < 10)%N) as [Hlt|Hge].
  - rewrite pretty_digit by done. simpl. by rewrite pretty_N_char_digit.
  - rewrite pretty_step by lia.
    destruct (IH (n `div` 10)%N) as [Hd Hne]; [apply N.div_lt; lia|].
    rewrite all_digits_append, Hd. simpl. rewrite pretty_N_char_digit.
    split; [done|]. by destruct (pretty (n `div` 10)%N).
Qed.

Lemma digits_accepted (seen : bool) (a : string) (d : ascii) :
  all_digits a = true → seen = true ∨ a ≠ "" → is_digit d = true →
  is_digits_point_digit_percent seen (a +:+ "." +:+ String d "%") = true.
Proof.
  revert seen. induction a as [|c a IH]; intros seen Ha Hs Hd; simpl.
  - destruct Hs as [->|?]; [|done]. by rewrite Hd.
  - simpl in Ha. apply andb_prop in Ha as [Hc Ha]. rewrite Hc.
    apply IH; auto.
Qed.

Lemma one_decimal_accepted (negative : bool) (tenths : N) :
  is_one_decimal_percent (one_decimal negative tenths +:+ "%") = true.
Proof.
  unfold one_decimal.
  destruct (pretty_all_digits (tenths `div` 10)%N) as [Hd Hne].
  assert (Hlt : (tenths `mod` 10 < 10)%N) by (apply N.mod_lt; lia).
  rewrite (pretty_digit _ Hlt).
  assert (Hacc : ∀ seen, is_digits_point_digit_percent seen
            (pretty (tenths `div` 10)%N +:+ "." +:+
               String (pretty_N_char (tenths `mod` 10)%N) "%") = true).
  { intros seen. apply digits_accepted; auto using pretty_N_char_digit. }
  destruct negative; simpl; rewrite !append_assoc; simpl.
  - apply Hacc.
  - destruct (pretty (tenths `div` 10)%N) as [|c a] eqn:E; [done|].
    simpl. simpl in Hd. apply andb_prop in Hd as [Hc _].
    rewrite bool_decide_eq_false_2.
    + apply (Hacc false).
    + intros ->. done.
Qed.

(** [toFixed(1)] splits the numeral of the tenths before its last digit. *)
Lemma insert_point (n : N) :
  (let m := pretty n in
   let k := String.length m in
   let m := if decide (k ≤ 1)%nat then zeros (1 + 1 - k) +:+ m else m in
   let k := String.length m in
   let '(a, b) := split_at (k - 1) m in
   a +:+ "." +:+ b)
  = pretty (n `div` 10)%N +:+ "." +:+ pretty (n `mod` 10)%N.
Proof.
  assert (Hlt : (n `mod` 10 < 10)%N) by (apply N.mod_lt; lia).
  destruct (decide (n < 10)%N) as [Hsmall|Hbig].
  - rewrite N.div_small, N.mod_small by done.
    rewrite (pretty_digit n) by done. reflexivity.
  - rewrite (pretty_step n) by lia. rewrite (pretty_digit _ Hlt).
    destruct (pretty_all_digits (n `div` 10)%N) as [_ Hne].
    set (a := pretty (n `div` 10)%N) in *. cbv zeta.
    rewrite length_append. simpl.
    rewrite decide_False by (destruct a; [done | simpl; lia]).
    rewrite length_append. simpl.
    replace (String.length a + 1 - 1)%nat with (String.length a) by lia.
    by rewrite split_at_append.
Qed.

Lemma tenths_bounds (x : Q) :
  (0 <= x)%Q →
  let tenths := Qfloor (x * inject_Z 10 + (1 # 2)) in
  (0 ≤ tenths)%Z ∧
  (inject_Z tenths - (1 # 2) <= x * inject_Z 10)%Q ∧
  (x * inject_Z 10 < inject_Z tenths + (1 # 2))%Q.
Proof.
  intros Hx tenths.
  pose proof (Qfloor_le (x * inject_Z 10 + (1 # 2))) as Hle.
  pose proof (Qlt_floor (x * inject_Z 10 + (1 # 2))) as Hlt.
  fold tenths in Hle, Hlt.
  assert (H0 : (0 <= x * inject_Z 10 + (1 # 2))%Q).
  { apply Qle_trans with (0 * inject_Z 10 + (1 # 2))%Q; [done|].
    apply Qplus_le_l. apply Qmult_le_compat_r; done. }
  split.
  - change 0%Z with (Qfloor 0). by apply Qfloor_resp_le.
  - rewrite inject_Z_plus in Hlt. change (inject_Z 1) with 1%Q in Hlt.
    clearbody tenths. set (y := (x * inject_Z 10)%Q) in *. clearbody y.
    split; lra.
Qed.

(** ** One decimal of precision *)

(** C6 (as amended).  For a finite number of magnitude below 10^21,
    [formatPercentage] returns the numeral of the nearest tenth (the
    larger magnitude on a tie) with exactly one digit after the point,
    followed by the percent sign; for [null] and [undefined] it returns
    ["0%"]. *)
Theorem formatPercentage_one_decimal (NumberToString : Q → string) (q : Q) :
  (Qabs q < ten21)%Q →
  let tenths := Qfloor (Qabs q * inject_Z 10 + (1 # 2)) in
  let text := one_decimal (negb (Qle_bool 0 q)) (Z.to_N tenths) +:+ "%" in
  formatPercentage NumberToString (Number (Finite q)) None = Returns text ∧
  is_one_decimal_percent text = true ∧
  (0 ≤ tenths)%Z ∧
  (inject_Z tenths - (1 # 2) <= Qabs q * inject_Z 10)%Q ∧
  (Qabs q * inject_Z 10 < inject_Z tenths + (1 # 2))%Q ∧
  formatPercentage NumberToString Null None = Returns "0%" ∧
  formatPercentage NumberToString Undefined None = Returns "0%".
Proof.
  intros Hq tenths text.
  split; [|split; [apply one_decimal_accepted|]].
  - unfold formatPercentage, toFixed. simpl default.
    rewrite decide_True by lia.
    assert (Hb : Qle_bool ten21 (Qabs q) = false).
    { destruct (Qle_bool ten21 (Qabs q)) eqn:E; [|done].
      apply Qle_bool_iff in E. exfalso. by apply (Qlt_not_le _ _ Hq). }
    rewrite Hb. rewrite decide_False by done.
    change (inject_Z (10 ^ Z.of_nat 1)) with (inject_Z 10). fold tenths.
    pose proof (insert_point (Z.to_N tenths)) as Hp. cbv zeta in Hp. rewrite Hp.
    subst text. unfold one_decimal. f_equal.
    destruct (Qle_bool 0 q); simpl; by rewrite ?append_assoc.
  - pose proof (tenths_bounds (Qabs q) (Qabs_nonneg q)) as (H1 & H2 & H3).
    repeat split; done.
Qed.

(** Witness for [formatPercentage_one_decimal]: 12.34 is shown as 12.3%. *)
Lemma formatPercentage_one_decimal_witness :
  (Qabs (1234 # 100) < ten21)%Q ∧
  formatPercentage (λ _, "") (Number (Finite (1234 # 100))) None = Returns "12.3%".
Proof.
  split; [reflexivity|].
  apply (formatPercentage_one_decimal (λ _, "") (1234 # 100)). reflexivity.
Defined.

(** C6 (as stated) fails on the Number NaN, which is neither [null] nor
    [undefined]: the text is ["NaN%"], without any decimal.  It fails on
    10^21 as well, where [toFixed] defers to [Number::toString], which
    gives ["1e+21"]. *)
Lemma formatPercentage_NaN_counterexample :
  formatPercentage (λ _, "1e+21") (Number NaN) None = Returns "NaN%" ∧
  is_one_decimal_percent "NaN%" = false ∧
  formatPercentage (λ _, "1e+21") (Number (Finite ten21)) None = Returns "1e+21%" ∧
  is_one_decimal_percent "1e+21%" = false.
Proof. repeat split; reflexivity. Qed.

End Format.

(* ===================================================================== *)
(** * ChartManager (charts.js) *)
(* ===================================================================== *)

Module Charts.
Import Format.

(** ** Objects in the heap *)

(** A value: a primitive, or a reference to an object of the heap. *)
Inductive value :=
| VUndefined
| VNull
| VBool (b : bool)
| VNumber (n : number)
| VString (s : string)
| VRef (l : nat).

Inductive kind := KObject | KArray | KFunction.

#[global] Instance kind_eq_dec : EqDecision kind.
Proof. solve_decision. Defined.

(** A property as a lookup finds it: a data property, writable or not,
    or the accessor [__proto__] that [Object.prototype] carries. *)
Inductive slot :=
| Data (v : value) (writable : bool)
| ProtoAccessor.

(** An object: its prototype, its own properties that are enumerable
    and writable data properties (all that assignments, object literals
    and [JSON.parse] make; the elements of an array are its properties
    ["0"], ["1"], ...), and its other own properties, which [for-in] and
    [JSON.stringify] do not see (those of the built-in objects). *)
Record object := Object {
  kind_of : kind;
  proto : option nat;
  props : gmap string value;
  internal : gmap string slot
}.

(** The heap: the object at index [l] is the one [VRef l] refers to. *)
Abbreviation heap := (list object).

(** The built-in prototypes sit at the start of the heap. *)
Definition object_prototype : nat := 0.
Definition function_prototype : nat := 1.
Definition array_prototype : nat := 2.
Definition string_prototype : nat := 3.
Definition number_prototype : nat := 4.
Definition boolean_prototype : nat := 5.

Definition alloc (o : object) (h : heap) : nat * heap := (length h, (h ++ [o])%list).

(** The object of [{}] and of an object literal. *)
Definition plain_object (entries : gmap string value) : object :=
  Object KObject (Some object_prototype) entries ∅.

(** How a run ends: normally, by an exception, or cut short by the
    bound on the depth of recursion.  The heap is kept in every case. *)
Inductive result (A : Type) :=
| Done (h : heap) (v : A)
| Threw (h : heap)
| OutOfFuel (h : heap).
Arguments Done {A} h v.
Arguments Threw {A} h.
Arguments OutOfFuel {A} h.

Definition heap_of {A} (r : result A) : heap :=
  match r with
  | Done h _ | Threw h | OutOfFuel h => h
  end.


Definition truthy (v : value) : bool :=
  match v with
  | VUndefined | VNull => false
  | VBool b => b
  | VNumber NaN => false
  | VNumber (Finite q) => negb (Qnum q =? 0)%Z
  | VNumber _ => true
  | VString s => negb (bool_decide (s = ""))
  | VRef _ => true
  end.

Definition has_kind (k : kind) (h : heap) (v : value) : bool :=
  match v with
  | VRef l =>
    match h !! l with
    | Some o => bool_decide (kind_of o = k)
    | None => false
    end
  | _ => false
  end.

(** The own properties of a string: its characters by their index, and
    its length. *)
Definition string_own (s : string) (key : string) : option value :=
  if decide (key = "length") then
    Some (VNumber (Finite (inject_Z (Z.of_nat (String.length s)))))
  else
    match filter (λ i, pretty i = key) (seq 0 (String.length s)) with
    | i :: _ => (λ c, VString (String c "")) <$> String.get i s
    | [] => None
    end.

(** The own property [key] of an object. *)
Definition own (o : object) (key : string) : option slot :=
  match props o !! key with
  | Some v => Some (Data v true)
  | None => internal o !! key
  end.

(** The property [key] as the object at [l] has or inherits it: the
    first own property along the prototype chain. *)
Fixpoint resolve (fuel : nat) (h : heap) (l : nat) (key : string) : option slot :=
  match fuel with
  | O => None
  | S n =>
    match h !! l with
    | None => None
    | Some o =>
      match own o key with
      | Some s => Some s
      | None =>
        match proto o with
        | Some p => resolve n h p key
        | None => None
        end
      end
    end
  end.

(** The object at which the lookup of a property of [v] starts. *)
Definition holder (v : value) : option nat :=
  match v with
  | VRef l => Some l
  | VString _ => Some string_prototype
  | VNumber _ => Some number_prototype
  | VBool _ => Some boolean_prototype
  | VUndefined | VNull => None
  end.

(** What the getter of [__proto__] returns for [v]. *)
Definition prototype_of (h : heap) (v : value) : value :=
  match v with
  | VRef l =>
    match h !! l with
    | Some o =>
      match proto o with
      | Some p => VRef p
      | None => VNull
      end
    | None => VUndefined
    end
  | _ => from_option VRef VUndefined (holder v)
  end.

(** [v[key]] for a [v] that is not [null] or [undefined]. *)
Definition get_prop (h : heap) (v : value) (key : string) : value :=
  match (match v with VString s => string_own s key | _ => None end) with
  | Some x => x
  | None =>
    match holder v ≫= λ l, resolve (S (length h)) h l key with
    | Some (Data x _) => x
    | Some ProtoAccessor => prototype_of h v
    | None => VUndefined
    end
  end.

Definition nullish (v : value) : bool :=
  match v with
  | VUndefined | VNull => true
  | _ => false
  end.

(** Whether the prototype chain from [from] passes through [target]. *)
Fixpoint reaches (fuel : nat) (h : heap) (from target : nat) : bool :=
  match fuel with
  | O => false
  | S n =>
    bool_decide (from = target) ||
    match h !! from ≫= proto with
    | Some p => reaches n h p target
    | None => false
    end
  end.

(** The setter of [__proto__] on the object [o] at [l]: a value that
    is neither an object nor [null] is ignored; the prototype of
    [Object.prototype] cannot be changed, and no cycle can be made
    ([None] is the [TypeError]). *)
Definition set_prototype (h : heap) (l : nat) (o : object) (x : value) : option heap :=
  let change (p : option nat) : option heap :=
    if decide (proto o = p) then Some h
    else if decide (l = object_prototype) then None
    else if from_option (λ p, reaches (S (length h)) h p l) false p then None
    else Some (<[l := Object (kind_of o) p (props o) (internal o)]> h) in
  match x with
  | VRef p => change (Some p)
  | VNull => change None
  | _ => Some h
  end.

(** The object after [key] has been given the value [x]: an own
    property keeps its place, a new property is enumerable. *)
Definition store_prop (o : object) (key : string) (x : value) : object :=
  match props o !! key, internal o !! key with
  | None, Some _ =>
    Object (kind_of o) (proto o) (props o) (<[key := Data x true]> (internal o))
  | _, _ => Object (kind_of o) (proto o) (<[key := x]> (props o)) (internal o)
  end.

(** [v[key] = x] in strict code: [None] stands for the [TypeError] that
    a primitive, [null], [undefined] or a property that cannot be
    written raises.  The property is looked up along the prototype
    chain first: the accessor [__proto__] sets the prototype of an
    object, and does nothing and raises nothing for a primitive. *)
Definition set_prop (h : heap) (v : value) (key : string) (x : value) : option heap :=
  match v with
  | VRef l =>
    o ← h !! l;
    match resolve (S (length h)) h l key with
    | Some (Data _ false) => None
    | Some ProtoAccessor => set_prototype h l o x
    | _ => Some (<[l := store_prop o key x]> h)
    end
  | VUndefined | VNull => None
  | _ =>
    match (match v with VString s => string_own s key | _ => None end) with
    | Some _ => None
    | None =>
      match holder v ≫= λ l, resolve (S (length h)) h l key with
      | Some ProtoAccessor => Some h
      | _ => None
      end
    end
  end.

(** The enumerable properties of the object at [l], own and inherited:
    its own ones, then those of its prototype that it does not have
    itself. *)
Fixpoint enumerable (fuel : nat) (h : heap) (l : nat) : list string :=
  match fuel with
  | O => []
  | S n =>
    match h !! l with
    | None => []
    | Some o =>
      ((map_to_list (props o)).*1 ++
       filter (λ k, own o k = None)
              (match proto o with
               | Some p => enumerable n h p
               | None => []
               end))%list
    end
  end.

(** The keys [for (const key in v)] visits. *)
Definition for_in (h : heap) (v : value) : list string :=
  match v with
  | VRef l => enumerable (S (length h)) h l
  | VString s =>
    ((pretty <$> seq 0 (String.length s)) ++
     filter (λ k, string_own s k = None)
            (enumerable (S (length h)) h string_prototype))%list
  | _ => from_option (enumerable (S (length h)) h) [] (holder v)
  end.

(** ** JSON.parse(JSON.stringify(v)) *)

(** [undefined] and functions have no JSON text. *)
Definition no_json (h : heap) (v : value) : bool :=
  match v with
  | VUndefined => true
  | _ => has_kind KFunction h v
  end.

(** The properties of an object, or the elements of an array, are
    copied in turn by [copy]; what has no JSON text is left out of an
    object and becomes [null] in an array. *)
Fixpoint clone_props (copy : heap → value → result value) (in_array : bool)
    (h : heap) (entries : list (string * value)) (acc : gmap string value)
    : result (gmap string value) :=
  match entries with
  | [] => Done h acc
  | (key, v) :: rest =>
    if no_json h v then
      clone_props copy in_array h rest
        (if in_array then <[key := VNull]> acc else acc)
    else
      match copy h v with
      | Done h' v' => clone_props copy in_array h' rest (<[key := v']> acc)
      | Threw h' => Threw h'
      | OutOfFuel h' => OutOfFuel h'
      end
  end.

(** The deep copy that the JSON round trip makes of [v]: the own
    enumerable properties are written, and [JSON.parse] makes objects
    and arrays with the built-in prototypes that have each key as an
    own property.  At top level a value without JSON text makes
    [JSON.parse] throw. *)
Fixpoint clone (fuel : nat) (h : heap) (v : value) : result value :=
  match fuel with
  | O => OutOfFuel h
  | S fuel' =>
    match v with
    | VUndefined => Threw h
    | VNull => Done h VNull
    | VBool b => Done h (VBool b)
    | VNumber (Finite q) => Done h (VNumber (Finite q))
    | VNumber _ => Done h VNull
    | VString s => Done h (VString s)
    | VRef l =>
      match h !! l with
      | None => Threw h
      | Some o =>
        match kind_of o with
        | KFunction => Threw h
        | k =>
          match clone_props (clone fuel') (bool_decide (k = KArray)) h
                  (map_to_list (props o)) ∅ with
          | Done h' copied =>
            let parsed :=
              Object k (Some (if bool_decide (k = KArray) then array_prototype
                              else object_prototype)) copied ∅ in
            let '(l', h'') := alloc parsed h' in Done h'' (VRef l')
          | Threw h' => Threw h'
          | OutOfFuel h' => OutOfFuel h'
          end
        end
      end
    end
  end.

(** ** mergeOptions *)

(** One round of the loop of the inner function [merge], with [merge]
    itself as [rec]. *)
Definition merge_key (rec : heap → value → value → result unit)
    (h : heap) (target source : value) (key : string) : result unit :=
  let sv := get_prop h source key in
  if truthy sv && has_kind KObject h sv then
    (* target[key] = target[key] || {} *)
    if nullish target then Threw h
    else
      let tv := get_prop h target key in
      let '(tv', h1) :=
        if truthy tv then (tv, h)
        else let '(l, h') := alloc (plain_object ∅) h in (VRef l, h') in
      match set_prop h1 target key tv' with
      | None => Threw h1
      | Some h2 =>
        (* merge(target[key], source[key]) *)
        rec h2 (get_prop h2 target key) (get_prop h2 source key)
      end
  else
    (* target[key] = source[key] *)
    if nullish target then Threw h
    else
      match set_prop h target key sv with
      | None => Threw h
      | Some h' => Done h' tt
      end.

Fixpoint merge_keys (step : heap → string → result unit)
    (h : heap) (keys : list string) : result unit :=
  match keys with
  | [] => Done h tt
  | key :: rest =>
    match step h key with
    | Done h' _ => merge_keys step h' rest
    | Threw h' => Threw h'
    | OutOfFuel h' => OutOfFuel h'
    end
  end.

(** [merge(target, source)]. *)
Fixpoint merge (fuel : nat) (h : heap) (target source : value) : result unit :=
  match fuel with
  | O => OutOfFuel h
  | S fuel' =>
    merge_keys (λ h' key, merge_key (merge fuel') h' target source key)
               h (for_in h source)
  end.

(** [mergeOptions(defaultOptions, customOptions)]. *)
Definition mergeOptions (fuel : nat) (h : heap) (defaultOptions customOptions : value)
    : result value :=
  match clone fuel h defaultOptions with
  | Done h1 merged =>
    match merge fuel h1 merged customOptions with
    | Done h2 _ => Done h2 merged
    | Threw h2 => Threw h2
    | OutOfFuel h2 => OutOfFuel h2
    end
  | Threw h1 => Threw h1
  | OutOfFuel h1 => OutOfFuel h1
  end.

(** ** The manager *)

(** A [Chart] instance of the charting library. *)
Record chart := Chart {
  canvas_of : string;
  type_of : string;
  data_of : value;
  options_of : value;
  destroyed : bool
}.

Record manager := Manager {
  store : heap;
  defaultOptions : value;          (* this.defaultOptions *)
  charts : gmap string nat;        (* this.charts: canvas id to instance *)
  instances : list chart;          (* every instance constructed so far *)
  canvases : gset string           (* ids of the canvas elements of the page *)
}.

Definition object_of (k : kind) (entries : list (string * value)) : object :=
  Object k (Some (if bool_decide (k = KArray) then array_prototype else object_prototype))
         (list_to_map entries) ∅.

Definition grid_color : value := VString "rgba(0, 0, 0, 0.1)".

(** The object literal of the constructor, laid out after [h]. *)
Definition default_options_literal (h : heap) : heap * value :=
  let b := length h in
  ((h ++
    [ object_of KObject [("usePointStyle", VBool true);
                         ("padding", VNumber (Finite 20))];
      object_of KObject [("position", VString "bottom"); ("labels", VRef b)];
      object_of KObject [("legend", VRef (b + 1))];
      object_of KObject [("color", grid_color)];
      object_of KObject [("beginAtZero", VBool true); ("grid", VRef (b + 3))];
      object_of KObject [("color", grid_color)];
      object_of KObject [("grid", VRef (b + 5))];
      object_of KObject [("y", VRef (b + 4)); ("x", VRef (b + 6))];
      object_of KObject [("responsive", VBool true);
                         ("maintainAspectRatio", VBool false);
                         ("plugins", VRef (b + 2));
                         ("scales", VRef (b + 7))] ])%list,
   VRef (b + 8)).

(** [new ChartManager()]. *)
Definition constructor (h : heap) (page : gset string) : manager :=
  let '(h', options) := default_options_literal h in
  Manager h' options ∅ [] page.

(** [chart.destroy()]. *)
Definition destroy (id : nat) (l : list chart) : list chart :=
  match l !! id with
  | Some c => <[id := Chart (canvas_of c) (type_of c) (data_of c) (options_of c) true]> l
  | None => l
  end.

(** [if (this.charts.has(canvasId)) this.charts.get(canvasId).destroy()]. *)
Definition destroy_existing (canvasId : string) (m : manager) : list chart :=
  match charts m !! canvasId with
  | Some id => destroy id (instances m)
  | None => instances m
  end.

Inductive created :=
| Created (id : nat)             (* the new chart is returned *)
| NoCanvas                       (* [null] is returned *)
| Raised                         (* an exception leaves [createChart] *)
| Unfinished.                    (* the bound on the recursion was reached *)

(** The parameter [options = {}]. *)
Definition given_options (options : value) (h : heap) : value * heap :=
  match options with
  | VUndefined => let '(l, h') := alloc (plain_object ∅) h in (VRef l, h')
  | _ => (options, h)
  end.

(** [createChart(canvasId, type, data, options = {})]. *)
Definition createChart (fuel : nat) (canvasId type : string) (data options : value)
    (m : manager) : created * manager :=
  let '(options, h0) := given_options options (store m) in
  if bool_decide (canvasId ∈ canvases m) then
    let existing := destroy_existing canvasId m in
    match mergeOptions fuel h0 (defaultOptions m) options with
    | Done h merged =>
      let id := length existing in
      (Created id,
       Manager h (defaultOptions m) (<[canvasId := id]> (charts m))
               (existing ++ [Chart canvasId type data merged false])%list (canvases m))
    | Threw h =>
      (Raised, Manager h (defaultOptions m) (charts m) existing (canvases m))
    | OutOfFuel h =>
      (Unfinished, Manager h (defaultOptions m) (charts m) existing (canvases m))
    end
  else
    (NoCanvas, Manager h0 (defaultOptions m) (charts m) (instances m) (canvases m)).

(** [updateChart(canvasId, newData)]. *)
Definition updateChart (canvasId : string) (newData : value) (m : manager) : manager :=
  match charts m !! canvasId ≫= λ id, (λ c, (id, c)) <$> instances m !! id with
  | Some (id, c) =>
    Manager (store m) (defaultOptions m) (charts m)
            (<[id := Chart (canvas_of c) (type_of c) newData (options_of c) (destroyed c)]>
               (instances m))
            (canvases m)
  | None => m
  end.

(** [destroyChart(canvasId)]. *)
Definition destroyChart (canvasId : string) (m : manager) : manager :=
  match charts m !! canvasId with
  | Some id =>
    Manager (store m) (defaultOptions m) (delete canvasId (charts m))
            (destroy id (instances m)) (canvases m)
  | None => m
  end.

(** [destroyAllCharts()]. *)
Definition destroyAllCharts (m : manager) : manager :=
  Manager (store m) (defaultOptions m) ∅
          (foldr (λ kv acc, destroy kv.2 acc) (instances m) (map_to_list (charts m)))
          (canvases m).

(** The options of [create7DayTrendChart], laid out after [h]. *)
Definition seven_day_options (h : heap) : heap * value :=
  let b := length h in
  ((h ++
    [ object_of KObject [("display", VBool true);
                         ("text", VString "Last 7 Days Activity")];
      object_of KObject [("title", VRef b)];
      object_of KObject [("display", VBool true); ("text", VString "Count")];
      object_of KObject [("beginAtZero", VBool true); ("title", VRef (b + 2))];
      object_of KObject [("y", VRef (b + 3))];
      object_of KObject [("plugins", VRef (b + 1)); ("scales", VRef (b + 4))] ])%list,
   VRef (b + 5)).

(** [v.k1.k2...] *)
Definition path (h : heap) (v : value) (keys : list string) : value :=
  foldl (get_prop h) v keys.

(** Every registered chart sits on the canvas it is registered under,
    and every chart that has not been destroyed is the registered chart
    of its canvas: no canvas carries two live charts, and no live chart
    is out of the manager's reach. *)
Record registry_ok (m : manager) : Prop := RegistryOk {
  reg_canvas : ∀ canvas id, charts m !! canvas = Some id →
    ∃ c, instances m !! id = Some c ∧ canvas_of c = canvas;
  reg_live : ∀ id c, instances m !! id = Some c → destroyed c = false →
    charts m !! canvas_of c = Some id
}.


(** ** Auxiliary facts on the registry *)

Lemma destroy_length id l : length (destroy id l) = length l.
Proof. unfold destroy. destruct (l !! id); [apply length_insert | done]. Qed.

Lemma destroy_lookup_eq id l c :
  l !! id = Some c →
  destroy id l !! id = Some (Chart (canvas_of c) (type_of c) (data_of c) (options_of c) true).
Proof.
  intros H. unfold destroy. rewrite H. apply list_lookup_insert_eq.
  by eapply lookup_lt_Some.
Qed.

Lemma destroy_lookup_ne id j l : id ≠ j → destroy id l !! j = l !! j.
Proof.
  intros H. unfold destroy. destruct (l !! id); [|done].
  by apply list_lookup_insert_ne.
Qed.

(** Destroying only sets the mark. *)
Lemma destroy_lookup_inv id j l c :
  destroy id l !! j = Some c →
  ∃ c0, l !! j = Some c0 ∧ canvas_of c0 = canvas_of c ∧
        (destroyed c = false → destroyed c0 = false ∧ j ≠ id).
Proof.
  intros H. destruct (decide (id = j)) as [->|Hne].
  - destruct (l !! j) as [c0|] eqn:E.
    + rewrite (destroy_lookup_eq _ _ _ E) in H. injection H as <-.
      exists c0. by repeat split.
    + unfold destroy in H. rewrite E in H. congruence.
  - rewrite destroy_lookup_ne in H by done. exists c. repeat split; auto.
Qed.

Lemma destroy_all_lookup (ids : list (string * nat)) l j c :
  foldr (λ kv acc, destroy kv.2 acc) l ids !! j = Some c →
  ∃ c0, l !! j = Some c0 ∧ canvas_of c0 = canvas_of c ∧
        (destroyed c = false → destroyed c0 = false ∧ j ∉ ids.*2).
Proof.
  revert c. induction ids as [|[k i] ids IH]; intros c H; simpl in *.
  - exists c. repeat split; auto. apply not_elem_of_nil.
  - apply destroy_lookup_inv in H as (c1 & H1 & Hc1 & Hd1).
    apply IH in H1 as (c0 & H0 & Hc0 & Hd0).
    exists c0. split; [done|]. split; [congruence|].
    intros Hd. destruct (Hd1 Hd) as [Hd1' Hne].
    destruct (Hd0 Hd1') as [Hd0' Hnin]. split; [done|].
    intros Hin. apply elem_of_cons in Hin as [?|?]; [by apply Hne | by apply Hnin].
Qed.

Lemma destroy_keeps_canvas id l j c :
  l !! j = Some c → ∃ c', destroy id l !! j = Some c' ∧ canvas_of c' = canvas_of c.
Proof.
  intros H. destruct (decide (id = j)) as [->|Hne].
  - rewrite (destroy_lookup_eq _ _ _ H). by eexists.
  - rewrite destroy_lookup_ne by done. by eexists.
Qed.

Lemma createChart_registry_ok fuel canvasId type data options m :
  registry_ok m → registry_ok (snd (createChart fuel canvasId type data options m)).
Proof.
  intros [Hcan Hlive]. unfold createChart.
  destruct (given_options options (store m)) as [opts h0].
  case_bool_decide as Hdom; [|by split].
  set (existing := destroy_existing canvasId m).
  assert (Hex_inv : ∀ j c, existing !! j = Some c →
            ∃ c0, instances m !! j = Some c0 ∧ canvas_of c0 = canvas_of c ∧
              (destroyed c = false →
                 destroyed c0 = false ∧ charts m !! canvasId ≠ Some j)).
  { intros j c Hj. subst existing. unfold destroy_existing in Hj.
    destruct (charts m !! canvasId) as [old|] eqn:E.
    - apply destroy_lookup_inv in Hj as (c0 & H0 & Hc & Hd). exists c0.
      repeat split; auto; try (by apply Hd). intros [= ->]. by apply Hd.
    - exists c. by repeat split. }
  assert (Hex_keep : ∀ j c, instances m !! j = Some c →
            ∃ c', existing !! j = Some c' ∧ canvas_of c' = canvas_of c).
  { intros j c Hj. subst existing. unfold destroy_existing.
    destruct (charts m !! canvasId) as [old|].
    - by apply destroy_keeps_canvas.
    - by eexists. }
  assert (Hraised : registry_ok
            (Manager h0 (defaultOptions m) (charts m) existing (canvases m)) ∧
          ∀ h, registry_ok (Manager h (defaultOptions m) (charts m) existing (canvases m))).
  { assert (∀ h, registry_ok (Manager h (defaultOptions m) (charts m) existing (canvases m))).
    { intros h. split; simpl.
      - intros canvas id Hc. destruct (Hcan _ _ Hc) as (c & Hi & Hcv).
        destruct (Hex_keep _ _ Hi) as (c' & Hi' & Hcv'). exists c'. split; congruence.
      - intros id c Hi Hd. destruct (Hex_inv _ _ Hi) as (c0 & Hi0 & Hcv & Hd0).
        destruct (Hd0 Hd) as [Hd0' _]. rewrite <- Hcv. by apply Hlive. }
    auto. }
  destruct (mergeOptions fuel h0 (defaultOptions m) opts) as [h merged|h|h];
    simpl; try apply Hraised.
  split; simpl.
  - intros canvas id Hc. destruct (decide (canvasId = canvas)) as [->|Hne].
    + rewrite lookup_insert_eq in Hc. injection Hc as <-.
      eexists. split; [by apply list_lookup_middle | reflexivity].
    + rewrite lookup_insert_ne in Hc by done.
      destruct (Hcan _ _ Hc) as (c & Hi & Hcv).
      destruct (Hex_keep _ _ Hi) as (c' & Hi' & Hcv'). exists c'.
      split; [|congruence]. rewrite lookup_app_l; [done|]. by eapply lookup_lt_Some.
  - intros id c Hi Hd. destruct (decide (id < length existing)) as [Hlt|Hge].
    + rewrite lookup_app_l in Hi by done.
      destruct (Hex_inv _ _ Hi) as (c0 & Hi0 & Hcv & Hd0).
      destruct (Hd0 Hd) as [Hd0' Hnot]. pose proof (Hlive _ _ Hi0 Hd0') as Hreg.
      rewrite Hcv in Hreg. rewrite lookup_insert_ne; [done|].
      intros Heq. rewrite <- Heq in Hreg. done.
    + rewrite lookup_app_r in Hi by lia.
      apply list_lookup_singleton_Some in Hi as [Hz <-]. simpl.
      rewrite lookup_insert_eq. f_equal. lia.
Qed.

Lemma destroy_existing_length canvasId m :
  length (destroy_existing canvasId m) = length (instances m).
Proof.
  unfold destroy_existing. destruct (charts m !! canvasId); [apply destroy_length | done].
Qed.


Lemma createChart_created fuel canvasId type data options m id :
  fst (createChart fuel canvasId type data options m) = Created id →
  canvasId ∈ canvases m ∧ id = length (instances m) ∧
  ∃ h merged,
    snd (createChart fuel canvasId type data options m)
    = Manager h (defaultOptions m) (<[canvasId := id]> (charts m))
        (destroy_existing canvasId m ++ [Chart canvasId type data merged false])%list
        (canvases m).
Proof.
  unfold createChart.
  destruct (given_options options (store m)) as [opts h0].
  case_bool_decide as Hdom; [|done].
  destruct (mergeOptions fuel h0 (defaultOptions m) opts) as [h merged|h|h];
    simpl; try done.
  intros [= <-]. split; [done|]. split; [apply destroy_existing_length|]. eauto.
Qed.

Lemma createChart_canvas_present fuel canvasId type data options m :
  canvasId ∈ canvases m →
  fst (createChart fuel canvasId type data options m) ≠ NoCanvas.
Proof.
  intros Hdom. unfold createChart.
  destruct (given_options options (store m)) as [opts h0].
  rewrite bool_decide_eq_true_2 by done.
  by destruct (mergeOptions fuel h0 (defaultOptions m) opts).
Qed.

Lemma destroyAllCharts_destroys m :
  registry_ok m →
  charts (destroyAllCharts m) = ∅ ∧
  (∀ j c, instances (destroyAllCharts m) !! j = Some c → destroyed c = true) ∧
  (∀ canvas id, charts m !! canvas = Some id →
     ∃ c, instances (destroyAllCharts m) !! id = Some c ∧ destroyed c = true).
Proof.
  intros [Hcan Hlive].
  assert (Hall : ∀ j c, instances (destroyAllCharts m) !! j = Some c → destroyed c = true).
  { intros j c Hi. simpl in Hi. destruct (destroyed c) eqn:Hd; [done|]. exfalso.
    apply destroy_all_lookup in Hi as (c0 & H0 & Hc & Hd0).
    destruct (Hd0 Hd) as [Hd0' Hnin]. apply Hnin.
    apply list_elem_of_fmap. exists (canvas_of c0, j). split; [done|].
    apply elem_of_map_to_list. by apply Hlive. }
  split; [done|]. split; [done|].
  intros canvas id Hc. destruct (Hcan _ _ Hc) as (c & Hi & _).
  assert (Hlen : id < length (instances (destroyAllCharts m))).
  { simpl. clear -Hi. apply lookup_lt_Some in Hi.
    induction (map_to_list (charts m)) as [|kv l IH]; simpl; [done|].
    by rewrite destroy_length. }
  apply lookup_lt_is_Some in Hlen as [c' Hc']. exists c'. split; [done|].
  by eapply Hall.
Qed.

Lemma destroyChart_registry_ok canvasId m :
  registry_ok m → registry_ok (destroyChart canvasId m).
Proof.
  intros [Hcan Hlive]. unfold destroyChart.
  destruct (charts m !! canvasId) as [old|] eqn:E; [|by split].
  split; simpl.
  - intros canvas id Hc. apply lookup_delete_Some in Hc as [Hne Hc].
    destruct (Hcan _ _ Hc) as (c & Hi & Hcv).
    destruct (destroy_keeps_canvas old _ _ _ Hi) as (c' & Hi' & Hcv').
    exists c'. split; congruence.
  - intros id c Hi Hd. apply destroy_lookup_inv in Hi as (c0 & H0 & Hcv & Hd0).
    destruct (Hd0 Hd) as [Hd0' Hne]. pose proof (Hlive _ _ H0 Hd0') as Hreg.
    rewrite Hcv in Hreg. rewrite lookup_delete_ne; [done|].
    intros Heq. rewrite <- Heq in Hreg. congruence.
Qed.

Lemma updateChart_registry_ok canvasId newData m :
  registry_ok m → registry_ok (updateChart canvasId newData m).
Proof.
  intros [Hcan Hlive]. unfold updateChart.
  destruct (charts m !! canvasId) as [id|] eqn:E; simpl; [|by split].
  destruct (instances m !! id) as [c|] eqn:Ei; simpl; [|by split].
  split; simpl.
  - intros canvas j Hc. destruct (Hcan _ _ Hc) as (c' & Hi & Hcv).
    destruct (decide (id = j)) as [->|Hne].
    + rewrite list_lookup_insert_eq by (by eapply lookup_lt_Some).
      eexists. split; [done|]. simpl. congruence.
    + rewrite list_lookup_insert_ne by done. eauto.
  - intros j c' Hi Hd. destruct (decide (id = j)) as [->|Hne].
    + rewrite list_lookup_insert_eq in Hi by (by eapply lookup_lt_Some).
      injection Hi as <-. simpl in *. by apply Hlive.
    + rewrite list_lookup_insert_ne in Hi by done. by apply Hlive.
Qed.

Lemma constructor_registry_ok h page : registry_ok (constructor h page).
Proof.
  split; simpl; intros *; [by rewrite lookup_empty|].
  by rewrite lookup_nil.
Qed.

(** ** More fuel changes no run that has ended *)










(** ** One chart per canvas *)


(** The built-in objects with which a page starts: [Object.prototype]
    with its members, the other prototypes (whose members no run below
    reaches), the function [Object], and the functions that are the
    members of [Object.prototype]. *)
Definition builtin_function (name : string) (arity : Z) : object :=
  Object KFunction (Some function_prototype) ∅
    (list_to_map [("name", Data (VString name) false);
                  ("length", Data (VNumber (Finite (inject_Z arity))) false)]).

Definition Object_prototype_methods : list (string * Z) :=
  [("hasOwnProperty", 1); ("isPrototypeOf", 1); ("propertyIsEnumerable", 1);
   ("toLocaleString", 0); ("toString", 0); ("valueOf", 0);
   ("__defineGetter__", 2); ("__defineSetter__", 2);
   ("__lookupGetter__", 1); ("__lookupSetter__", 1)]%Z.

Definition realm : heap :=
  ([ Object KObject None ∅
       (list_to_map
          (("constructor", Data (VRef 6) true) :: ("__proto__", ProtoAccessor) ::
           imap (λ i m, (m.1, Data (VRef (7 + i)) true)) Object_prototype_methods));
     Object KFunction (Some object_prototype) ∅ ∅;
     Object KArray (Some object_prototype) ∅ ∅;
     Object KObject (Some object_prototype) ∅ ∅;
     Object KObject (Some object_prototype) ∅ ∅;
     Object KObject (Some object_prototype) ∅ ∅;
     Object KFunction (Some function_prototype) ∅
       (list_to_map [("prototype", Data (VRef object_prototype) false);
                     ("name", Data (VString "Object") false);
                     ("length", Data (VNumber (Finite 1)) false)]) ]
   ++ ((λ m, builtin_function m.1 m.2) <$> Object_prototype_methods))%list.

(** The manager of a page with the given canvases, and the options of
    the 7-day trend chart built by its caller. *)
Definition trend_setup (page : gset string) : manager * value :=
  let m := constructor realm page in
  let '(h, options) := seven_day_options (store m) in
  (Manager h (defaultOptions m) (charts m) (instances m) (canvases m), options).




(** ** mergeOptions and the prototype chain *)

(** The options that [JSON.parse] makes of the text
    [{ __proto__ : { animation : false } }] (with the keys quoted), laid
    out after [h]: [__proto__] is an own property of the parsed object. *)
Definition parsed_proto_options (h : heap) : heap * value :=
  let b := length h in
  ((h ++ [ object_of KObject [("animation", VBool false)];
           object_of KObject [("__proto__", VRef b)] ])%list,
   VRef (b + 1)).

(** The own property [key] of the object that [v] refers to. *)
Definition own_prop (h : heap) (v : value) (key : string) : option value :=
  match v with
  | VRef l => h !! l ≫= λ o, props o !! key
  | _ => None
  end.

(** C10 fails: a chart is created with options parsed from JSON that
    have the key [__proto__].  [merge] reads [target.__proto__], which
    is [Object.prototype], and merges into it.  The call returns its
    chart as usual, and [this.defaultOptions] is the same object with
    the same own properties; but [Object.prototype], which existed
    before the call, now has the property [animation], the defaults
    inherit it, and the chart created next without any options has it
    as an own option, which it has not when the first call is left
    out. *)
Theorem mergeOptions_pollutes_prototype :
  let m := constructor realm {["seven-day-chart"; "partner-chart"]} in
  let '(h, custom) := parsed_proto_options (store m) in
  let m0 := Manager h (defaultOptions m) (charts m) (instances m) (canvases m) in
  let '(r1, m1) := createChart 8 "seven-day-chart" "line" VNull custom m0 in
  let '(r2, m2) := createChart 8 "partner-chart" "bar" VNull VUndefined m1 in
  let '(r, alone) := createChart 8 "partner-chart" "bar" VNull VUndefined m0 in
  r1 = Created 0 ∧ r2 = Created 1 ∧ r = Created 0 ∧
  own_prop (store m0) (VRef object_prototype) "animation" = None ∧
  get_prop (store m0) (defaultOptions m0) "animation" = VUndefined ∧
  own_prop (store m1) (VRef object_prototype) "animation" = Some (VBool false) ∧
  defaultOptions m1 = defaultOptions m0 ∧
  own_prop (store m1) (defaultOptions m1) "animation" = None ∧
  get_prop (store m1) (defaultOptions m1) "animation" = VBool false ∧
  (options_of <$> instances m2 !! 1%nat) ≫= (λ merged, own_prop (store m2) merged "animation")
  = Some (VBool false) ∧
  (options_of <$> instances alone !! 0%nat) ≫= (λ merged, own_prop (store alone) merged "animation")
  = None.
Proof. by vm_compute. Qed.

(** The 7-day trend chart on the manager of a fresh page: the merged
    options carry the title of the chart and the legend of the defaults,
    and the defaults have no title afterwards. *)
Lemma seven_day_chart_options :
  let '(m, options) := trend_setup {["seven-day-chart"]} in
  let m' := snd (createChart 8 "seven-day-chart" "line" VNull options m) in
  (options_of <$> instances m' !! 0%nat) ≫= (λ merged,
     Some (path (store m') merged ["plugins"; "title"; "text"],
           path (store m') merged ["plugins"; "legend"; "position"]))
  = Some (VString "Last 7 Days Activity", VString "bottom") ∧
  path (store m') (defaultOptions m') ["plugins"; "title"] = VUndefined ∧
  path (store m') (defaultOptions m') ["plugins"; "legend"; "position"]
  = VString "bottom".
Proof. by vm_compute. Qed.

End Charts.

(* ===================================================================== *)
(** * Further properties of the timer registry *)
(* ===================================================================== *)

Module RegistryFacts.
Import Timers AutoRefresh AdminPanel.

(** The active timers that were created through the registry. *)
Definition owned (foreign : gset positive) (w : world) : gmap positive timer :=
  filter (λ it, it.1 ∉ foreign) (timers w).

Lemma owned_lookup foreign w id tm :
  owned foreign w !! id = Some tm ↔ timers w !! id = Some tm ∧ id ∉ foreign.
Proof. unfold owned. by rewrite map_lookup_filter_Some. Qed.

Lemma injective_img_size (m : gmap string positive) :
  (∀ k1 k2 id, m !! k1 = Some id → m !! k2 = Some id → k1 = k2) →
  size (map_img m : gset positive) = size m.
Proof.
  induction m as [|k id m Hk _ IH] using map_first_key_ind; intros Hinj.
  - rewrite map_size_empty. apply size_empty_iff. apply map_img_empty.
  - rewrite map_size_insert_None by done.
    assert (Hnot : id ∉ (map_img m : gset positive)).
    { intros Hin. apply elem_of_map_img in Hin as [j Hj].
      assert (k = j); [|congruence].
      apply (Hinj k j id); [apply lookup_insert_eq|].
      rewrite lookup_insert_ne; [done|]. intros ->. congruence. }
    rewrite (leibniz_equiv _ _ (map_img_insert_notin m k id Hk)).
    rewrite size_union by set_solver. rewrite size_singleton. f_equal.
    apply IH. intros k1 k2 i H1 H2.
    apply (Hinj k1 k2 i); (rewrite lookup_insert_ne; [done|]; intros ->; congruence).
Qed.

(** X3.  In a coherent world the active timers created through the
    registry are as many as the registered keys. *)
Theorem one_timer_per_key foreign w :
  coherent foreign w → size (owned foreign w) = size (registry w).
Proof.
  intros Hw. rewrite <- (size_dom (D := gset positive)).
  rewrite <- (injective_img_size (registry w)) by apply (coh_one_key _ _ Hw).
  f_equal. apply set_eq. intros id.
  rewrite elem_of_dom, elem_of_map_img. split.
  - intros [tm Hid]. apply owned_lookup in Hid as [Hid Hnf].
    destruct (coh_no_orphan _ _ Hw id (ex_intro _ _ Hid)) as [?|?]; done.
  - intros [key Hk]. destruct (coh_registered _ _ Hw _ _ Hk) as [tm Htm].
    exists tm. apply owned_lookup. split; [done|]. by eapply coh_foreign.
Qed.

(** Witness for [one_timer_per_key]: the dashboard and tickets tasks
    started twice leave two timers. *)
Lemma one_timer_per_key_witness :
  let w := startAutoRefresh CONFIG_AUTO_REFRESH
             (startAutoRefresh CONFIG_AUTO_REFRESH (create true Timers.empty)) in
  coherent ∅ w ∧ size (owned ∅ w) = size (registry w) ∧ size (registry w) = 2.
Proof.
  assert (Hw : coherent ∅ (startAutoRefresh CONFIG_AUTO_REFRESH
                 (startAutoRefresh CONFIG_AUTO_REFRESH (create true Timers.empty))))
    by (do 2 apply startAutoRefresh_coherent; apply create_coherent).
  split; [exact Hw|]. split; [exact (one_timer_per_key ∅ _ Hw) | by vm_compute].
Defined.

(** X1.  [stop] cancels the timer of its key and nothing else: the key
    is no longer registered and its timer no longer active, every other
    key keeps its timer, foreign timers are left alone, and a key that
    is not registered leaves the world as it is. *)
Theorem stop_cancels_only_its_key foreign w key :
  coherent foreign w →
  let w' := stop key w in
  coherent foreign w' ∧
  registry w' !! key = None ∧
  (∀ old, registry w !! key = Some old → timers w' !! old = None) ∧
  (∀ k, k ≠ key →
     registry w' !! k = registry w !! k ∧ timer_of k w' = timer_of k w) ∧
  (∀ id, id ∈ foreign → timers w' !! id = timers w !! id) ∧
  (registry w !! key = None → w' = w).
Proof.
  intros Hw w'. split; [by apply stop_coherent|].
  subst w'. split; [rewrite stop_registry; apply lookup_delete_eq|].
  split.
  { intros old Hold. rewrite stop_timers, Hold. apply lookup_delete_eq. }
  split.
  { intros k Hk. unfold timer_of. rewrite stop_registry, stop_timers.
    rewrite lookup_delete_ne by done. split; [done|].
    destruct (registry w !! k) as [id|] eqn:E; [simpl|done].
    destruct (registry w !! key) as [old|] eqn:E'; [|done].
    rewrite lookup_delete_ne; [done|]. intros <-.
    apply Hk. by eapply (coh_one_key _ _ Hw). }
  split.
  { intros id Hid. rewrite stop_timers.
    destruct (registry w !! key) as [old|] eqn:E'; [|done].
    rewrite lookup_delete_ne; [done|]. intros <-.
    by apply (coh_foreign _ _ Hw) in E'. }
  intros Hnone. destruct w as [[m e] tb]. unfold registry in Hnone.
  simpl in *. by rewrite Hnone.
Qed.

(** Witness for [stop_cancels_only_its_key]: the tickets task is
    stopped and the dashboard task keeps running. *)
Lemma stop_cancels_only_its_key_witness :
  let w := startAutoRefresh CONFIG_AUTO_REFRESH (create true Timers.empty) in
  coherent ∅ w ∧
  timer_of "tickets" (stop "tickets" w) = None ∧
  timer_of "dashboard" (stop "tickets" w) = timer_of "dashboard" w.
Proof.
  assert (Hw : coherent ∅ (startAutoRefresh CONFIG_AUTO_REFRESH (create true Timers.empty)))
    by (apply startAutoRefresh_coherent, create_coherent).
  split; [exact Hw|].
  destruct (stop_cancels_only_its_key ∅ _ "tickets" Hw) as (_ & Hk & _ & Hother & _).
  split.
  - unfold timer_of. by rewrite Hk.
  - by apply Hother.
Defined.

(** X2.  [toggle] flips the switch.  Switching off cancels every timer
    of the registry and empties it; switching on starts nothing and
    brings no timer back, so off and on again leaves the registry empty
    and enabled. *)
Theorem toggle_does_not_restart foreign w :
  coherent foreign w →
  enabled (fst (toggle w)) = negb (enabled (fst w)) ∧
  coherent foreign (toggle w) ∧
  (enabled (fst w) = true →
     registry (toggle w) = ∅ ∧
     (∀ id, id ∉ foreign → timers (toggle w) !! id = None) ∧
     registry (toggle (toggle w)) = ∅ ∧
     enabled (fst (toggle (toggle w))) = true ∧
     (∀ id, id ∉ foreign → timers (toggle (toggle w)) !! id = None)) ∧
  (enabled (fst w) = false →
     registry (toggle w) = registry w ∧ timers (toggle w) = timers w).
Proof.
  intros Hw. destruct w as [[m e] tb].
  assert (Hoff : ∀ v : world, coherent foreign v →
            ∀ id, id ∉ foreign → timers (stopAll v) !! id = None).
  { intros v Hv id Hid.
    destruct (timers (stopAll v) !! id) as [tm|] eqn:E; [|done].
    pose proof (stopAll_timers_sub _ _ _ E) as E'.
    destruct (coh_no_orphan _ _ Hv id (ex_intro _ _ E')) as [?|[k Hk]]; [done|].
    by rewrite (stopAll_timers_registered _ _ _ Hk) in E. }
  split; [by destruct e|]. split; [by apply toggle_coherent|].
  assert (Hc : coherent foreign (Make m false, tb)) by (by destruct Hw).
  split; simpl; intros ->; simpl; [|done].
  split; [done|]. split; [by apply (Hoff (Make m false, tb))|].
  split; [done|]. split; [done|]. by apply (Hoff (Make m false, tb)).
Qed.

(** Witness for [toggle_does_not_restart]: the panel's tasks are gone
    after auto-refresh is switched off and on again. *)
Lemma toggle_does_not_restart_witness :
  let w := startAutoRefresh CONFIG_AUTO_REFRESH (create true Timers.empty) in
  coherent ∅ w ∧ enabled (fst w) = true ∧ registry (toggle (toggle w)) = ∅.
Proof.
  assert (Hw : coherent ∅ (startAutoRefresh CONFIG_AUTO_REFRESH (create true Timers.empty)))
    by (apply startAutoRefresh_coherent, create_coherent).
  split; [exact Hw|]. split; [reflexivity|].
  by apply (toggle_does_not_restart ∅ _ Hw).
Defined.

End RegistryFacts.

(* ===================================================================== *)
(** * Further properties of the loading indicator *)
(* ===================================================================== *)

Module LoadingFacts.
Import LoadingManager.

(** The call is about [key]: it shows it, hides it, or hides all. *)
Definition mentions (key : string) (c : call) : Prop :=
  c = Show key ∨ c = Hide key ∨ c = HideAll.

Lemma step_other_key key c s :
  ¬ mentions key c →
  (key ∈ loadingStates (step s c) ↔ key ∈ loadingStates s).
Proof.
  unfold mentions. intros Hm. destruct c as [k|k|]; simpl.
  - assert (k ≠ key) by (intros ->; naive_solver). set_solver.
  - assert (k ≠ key) by (intros ->; naive_solver). set_solver.
  - naive_solver.
Qed.

Lemma run_other_key key calls s :
  Forall (λ c, ¬ mentions key c) calls →
  (key ∈ loadingStates (run calls s) ↔ key ∈ loadingStates s).
Proof.
  intros Hall. revert s. induction Hall as [|c calls Hc _ IH]; intros s; [done|].
  simpl. rewrite IH. by apply step_other_key.
Qed.

(** X4.  The loading set does not count: whether [key] is in flight
    depends only on the last call about it.  After a [show(key)] the
    key is in the set, after a [hide(key)] or a [hideAll()] it is not,
    however many [show(key)] came before, and whatever was called for
    other keys afterwards. *)
Theorem last_call_decides (key : string) (before after : list call) (s : t) :
  Forall (λ c, ¬ mentions key c) after →
  key ∈ loadingStates (run (before ++ Show key :: after) s) ∧
  (key ∉ loadingStates (run (before ++ Hide key :: after) s)) ∧
  (key ∉ loadingStates (run (before ++ HideAll :: after) s)).
Proof.
  intros Hafter. rewrite !run_app. simpl.
  split; [|split]; rewrite (run_other_key key after) by done; simpl; set_solver.
Qed.

(** Witness for [last_call_decides]: three requests for the dashboard
    are in flight and one of them finishes. *)
Lemma last_call_decides_witness :
  Forall (λ c, ¬ mentions "dashboard" c) [Show "tickets"] ∧
  "dashboard" ∉ loadingStates
    (run ([Show "dashboard"; Show "dashboard"; Show "dashboard"]
            ++ Hide "dashboard" :: [Show "tickets"])
         (create (Some DisplayNone))).
Proof.
  assert (H : Forall (λ c, ¬ mentions "dashboard" c) [Show "tickets"]).
  { repeat constructor. unfold mentions. naive_solver. }
  split; [exact H|].
  apply (last_call_decides "dashboard"
           [Show "dashboard"; Show "dashboard"; Show "dashboard"]
           [Show "tickets"] (create (Some DisplayNone)) H).
Defined.

End LoadingFacts.

(* ===================================================================== *)
(** * Further properties of requests and of the error handler *)
(* ===================================================================== *)

Module ApiFacts.
Import Api.

(** X5.  A call that rejects with [null] or [undefined] makes the
    handler itself fail: [execute] throws a [TypeError] in place of the
    rejection, no notification is shown, and the loading key is
    released all the same. *)
Theorem execute_nullish_rejection {A} (apiCall : world → outcome A * world)
    loadingKey (showLoading : bool) w w2 :
  apiCall (if showLoading then with_loading (LoadingManager.show loadingKey) w else w)
  = (Throws ThrownNullish, w2) →
  ∃ w', execute apiCall loadingKey showLoading w
        = (Throws (TypeError_reading "message"), w') ∧
    notifications w' = notifications w2 ∧
    (showLoading = true →
       loadingKey ∉ LoadingManager.loadingStates (loading w')).
Proof.
  intros Hcall. unfold execute. rewrite Hcall. simpl.
  eexists. split; [reflexivity|]. destruct showLoading; simpl; [|done].
  split; [done|]. intros _. set_solver.
Qed.

(** Witness for [execute_nullish_rejection]. *)
Lemma execute_nullish_rejection_witness :
  let w := World (LoadingManager.create (Some LoadingManager.DisplayNone)) [] [] "localhost" in
  ∃ w', execute (λ w0, (@Throws unit ThrownNullish, w0)) "tickets" true w
        = (Throws (TypeError_reading "message"), w') ∧
    notifications w' = [] ∧
    (true = true → "tickets" ∉ LoadingManager.loadingStates (loading w')).
Proof.
  exact (execute_nullish_rejection (λ w0, (@Throws unit ThrownNullish, w0))
           "tickets" true
           (World (LoadingManager.create (Some LoadingManager.DisplayNone)) [] []
                  "localhost")
           _ eq_refl).
Defined.



(** X7.  [request] returns data only for a response that is [ok], and
    then leaves the page untouched.  Whenever it fails it logs exactly
    one console entry naming the endpoint and throws; a response that
    is not [ok] always fails: with the [detail] of its body as message
    when there is one, with the status when the body has no [detail] or
    is no JSON, and with the [TypeError] of reading [detail] when the
    body is the JSON value [null]. *)
Theorem request_outcomes (endpoint : string) (f : fetched) (w : world) :
  (∀ d, fst (request endpoint f w) = Returns d →
     snd (request endpoint f w) = w ∧ ∃ r, f = FetchResolves r ∧ ok r = true) ∧
  (∀ e, fst (request endpoint f w) = Throws e →
     console (snd (request endpoint f w))
     = (console w ++ [ConsoleError ("API request failed: " +:+ endpoint) e])%list ∧
     notifications (snd (request endpoint f w)) = notifications w ∧
     loading (snd (request endpoint f w)) = loading w) ∧
  (∀ r, f = FetchResolves r → ok r = false →
     ∃ m, fst (request endpoint f w) = Throws (ErrorObject m) ∧
       (∀ text payload, body_json r = Parsed (JsonData (DetailTruthy text) payload) →
          m = text) ∧
       ((∃ payload, body_json r = Parsed (JsonData DetailFalsy payload)) ∨
        (∃ why, body_json r = ParseFails why) →
          m = "HTTP error! status: " +:+ pretty (status r)) ∧
       (body_json r = Parsed JsonNull →
          ErrorObject m = TypeError_reading "detail")).
Proof.
  split; [|split].
  - intros d Hd. rewrite request_outcome in Hd. unfold request. rewrite Hd.
    split; [done|]. unfold request_body in Hd.
    destruct f as [m|r]; [done|]. exists r. split; [done|].
    destruct (ok r); [done|]. simpl in Hd. by repeat case_match.
  - intros e He. rewrite request_outcome in He. unfold request. by rewrite He.
  - intros r -> Hok. rewrite request_outcome. unfold request_body. rewrite Hok.
    simpl. destruct (body_json r) as [[|[|text] payload]|why]; eexists;
      (split; [reflexivity|]); (split; [congruence|]);
      (split; [intros [[? ?]|[? ?]]; congruence
              | intros ?; first [reflexivity | congruence]]).
Qed.

End ApiFacts.

(* ===================================================================== *)
(** * Further properties of the connection monitor *)
(* ===================================================================== *)

Module MonitorFacts.
Import Api ConnectionMonitor.

Definition probe_fails (f : fetched) : bool :=
  match request_body f with
  | Returns _ => false
  | Throws _ => true
  end.

(** The notices one event adds: one for a window event; for a probe,
    one from the error handler when it fails and one from the monitor
    when the state changes. *)
Definition notices_of (s : state) (ev : event) : nat :=
  match ev with
  | Online | Offline => 1
  | Probe f _ =>
    (if probe_fails f then 1 else 0)
    + (if bool_decide (isOnline (fst s) = negb (probe_fails f)) then 0 else 1)
  end.

Fixpoint notices_expected (evs : list event) (s : state) : nat :=
  match evs with
  | [] => 0
  | ev :: rest => notices_of s ev + notices_expected rest (step s ev)
  end.

Lemma step_notifications s ev :
  ∃ added, notifications (snd (step s ev)) = (notifications (snd s) ++ added)%list ∧
           length added = notices_of s ev ∧
           (∀ f now, ev = Probe f now →
              isOnline (fst (step s ev)) = negb (probe_fails f) ∧
              lastCheck (fst (step s ev)) = now).
Proof.
  destruct s as [[online last] w]. destruct ev as [| |f now]; simpl.
  - eexists. split; [reflexivity|]. by split.
  - eexists. split; [reflexivity|]. by split.
  - unfold checkConnection, healthCheck, execute, request, probe_fails.
    destruct (request_body f) as [d|e] eqn:Hf; simpl.
    + destruct online; simpl.
      * exists []. rewrite app_nil_r. split; [done|]. split; [done|].
        intros ? ? [= <- <-]. by rewrite Hf.
      * eexists. split; [reflexivity|]. split; [done|].
        intros ? ? [= <- <-]. by rewrite Hf.
    + destruct (request_throws_error_object _ _ Hf) as [m ->].
      unfold handle. simpl.
      destruct online; case_bool_decide; simpl;
        (eexists; split; [by rewrite <- ?app_assoc|]; split; [done|]);
        intros ? ? [= <- <-]; by rewrite Hf.
Qed.

(** X8.  Along any run of the monitor the notices shown are: one for
    every window event, whether or not the state changes; one for every
    failed probe; and one for every probe that changes the state.  After
    a probe the state tells whether the probe succeeded, and
    [lastCheck] is the time of the probe. *)
Theorem notices_counted (evs : list event) (s : state) :
  length (notices evs s) = notices_expected evs s ∧
  (∀ before f now, evs = (before ++ [Probe f now])%list →
     isOnline (fst (run evs s)) = negb (probe_fails f) ∧
     lastCheck (fst (run evs s)) = now).
Proof.
  split.
  - unfold notices.
    assert (H : ∃ added,
              notifications (snd (run evs s)) = (notifications (snd s) ++ added)%list ∧
              length added = notices_expected evs s).
    { revert s. induction evs as [|ev rest IH]; intros s; simpl.
      - exists []. by rewrite app_nil_r.
      - destruct (step_notifications s ev) as (a1 & H1 & L1 & _).
        destruct (IH (step s ev)) as (a2 & H2 & L2).
        exists (a1 ++ a2)%list. rewrite H2, H1, <- app_assoc. split; [done|].
        rewrite length_app. lia. }
    destruct H as (added & -> & <-). by rewrite drop_app_length.
  - intros before f now ->. unfold run. rewrite foldl_app. simpl.
    destruct (step_notifications (foldl step s before) (Probe f now))
      as (_ & _ & _ & H). by apply H.
Qed.

End MonitorFacts.

(* ===================================================================== *)
(** * Further properties of debounce *)
(* ===================================================================== *)

Module DebounceFacts.
Import Debounce.

Section Settled.
Context {A : Type}.










End Settled.


End DebounceFacts.

(* ===================================================================== *)
(** * Further properties of formatPercentage *)
(* ===================================================================== *)

Module FormatFacts.
Import Api Format.
#[local] Arguments String.append !_ _ / : simpl nomatch.

Lemma split_at_spec (n : nat) (s : string) :
  (n ≤ String.length s)%nat →
  (split_at n s).1 +:+ (split_at n s).2 = s ∧
  String.length (split_at n s).1 = n ∧
  (String.length (split_at n s).2 = String.length s - n)%nat.
Proof.
  revert s. induction n as [|n IH]; intros s Hn; simpl.
  - destruct s; simpl; repeat split; lia.
  - destruct s as [|c s]; simpl in *; [lia|].
    destruct (IH s) as (H1 & H2 & H3); [lia|].
    destruct (split_at n s) as [a b]. simpl in *. by rewrite H1, H2, H3.
Qed.

Lemma append_empty_r (s : string) : s +:+ "" = s.
Proof. induction s as [|c s IH]; simpl; [done | by rewrite IH]. Qed.

Lemma all_digits_zeros (k : nat) : all_digits (zeros k) = true.
Proof. induction k as [|k IH]; simpl; [done|]. by rewrite IH. Qed.

Lemma length_zeros (k : nat) : String.length (zeros k) = k.
Proof. induction k as [|k IH]; simpl; [done|]. by rewrite IH. Qed.

(** X10.  With [decimals] up to 100, a finite number of magnitude below
    10^21 is rendered as a sign, at least one digit and, unless
    [decimals] is 0, a point followed by exactly [decimals] digits, and
    then the percent sign.  More than 100 decimals raise a
    [RangeError], and a value without [toFixed] raises a [TypeError]. *)
Theorem formatPercentage_decimals (NumberToString : Q → string) (f : nat) (q : Q) :
  ((f ≤ 100)%nat → (Qabs q < ten21)%Q →
   ∃ a b,
     formatPercentage NumberToString (Number (Finite q)) (Some f)
     = Returns (((if Qle_bool 0 q then "" else "-")
                 +:+ a +:+ (if decide (f = O) then "" else "." +:+ b)) +:+ "%") ∧
     all_digits a = true ∧ a ≠ "" ∧
     all_digits b = true ∧ String.length b = f) ∧
  ((100 < f)%nat →
   ∃ e, formatPercentage NumberToString (Number (Finite q)) (Some f) = Throws e) ∧
  (∃ e, formatPercentage NumberToString Other (Some f) = Throws e).
Proof.
  split; [|split].
  - intros Hf Hq. unfold formatPercentage, toFixed. simpl default.
    rewrite decide_True by done.
    assert (Hb : Qle_bool ten21 (Qabs q) = false).
    { destruct (Qle_bool ten21 (Qabs q)) eqn:E; [|done].
      apply Qle_bool_iff in E. exfalso. by apply (Qlt_not_le _ _ Hq). }
    rewrite Hb.
    set (n := Z.to_N (Qfloor (Qabs q * inject_Z (10 ^ Z.of_nat f) + (1 # 2)))).
    destruct (pretty_all_digits n) as [Hd Hne].
    destruct (decide (f = O)) as [->|Hf0].
    + exists (pretty n), "". rewrite append_empty_r. by repeat split.
    + set (m := if decide (String.length (pretty n) ≤ f)%nat
                then zeros (f + 1 - String.length (pretty n)) +:+ pretty n
                else pretty n).
      assert (Hm : all_digits m = true ∧ (f + 1 ≤ String.length m)%nat).
      { subst m. case_decide as Hk.
        - rewrite all_digits_append, all_digits_zeros, Hd.
          rewrite length_append, length_zeros. split; [done|lia].
        - split; [done|lia]. }
      destruct Hm as [Hmd Hml].
      destruct (split_at_spec (String.length m - f) m) as (Hab & Hla & Hlb); [lia|].
      destruct (split_at (String.length m - f) m) as [a b]. simpl in *.
      exists a, b. rewrite <- Hab, all_digits_append in Hmd.
      apply andb_prop in Hmd as [Ha Hbd].
      repeat split; try done.
      * intros ->. simpl in Hla. lia.
      * lia.
  - intros Hf. unfold formatPercentage. simpl default.
    rewrite decide_False by lia. by eexists.
  - by eexists.
Qed.

(** Witness for [formatPercentage_decimals]: three decimals of one third. *)
Lemma formatPercentage_decimals_witness :
  (3 ≤ 100)%nat ∧ (Qabs (1 # 3) < ten21)%Q ∧
  ∃ a b,
    formatPercentage (λ _, "") (Number (Finite (1 # 3))) (Some 3%nat)
    = Returns (((if Qle_bool 0 (1 # 3) then "" else "-")
                +:+ a +:+ (if decide (3%nat = O) then "" else "." +:+ b)) +:+ "%") ∧
    all_digits a = true ∧ a ≠ "" ∧
    all_digits b = true ∧ String.length b = 3%nat.
Proof.
  assert (H1 : (3 ≤ 100)%nat) by lia.
  assert (H2 : (Qabs (1 # 3) < ten21)%Q) by reflexivity.
  split; [exact H1|]. split; [exact H2|].
  exact (proj1 (formatPercentage_decimals (λ _, "") 3 (1 # 3)) H1 H2).
Defined.

End FormatFacts.

(* ===================================================================== *)
(** * Further properties of the chart manager *)
(* ===================================================================== *)

Module ChartFacts.
Import Charts.

(** [getChartData(canvasId)]. *)
Definition getChartData (canvasId : string) (m : manager) : value :=
  match charts m !! canvasId with
  | Some id =>
    match instances m !! id with
    | Some c => data_of c
    | None => VUndefined
    end
  | None => VNull
  end.

(** The calls that change the manager. *)
Inductive op :=
| Create (canvasId type : string) (data options : value)
| Update (canvasId : string) (newData : value)
| Destroy (canvasId : string)
| DestroyAll.

Definition apply_op (fuel : nat) (m : manager) (o : op) : manager :=
  match o with
  | Create canvasId type data options =>
    snd (createChart fuel canvasId type data options m)
  | Update canvasId newData => updateChart canvasId newData m
  | Destroy canvasId => destroyChart canvasId m
  | DestroyAll => destroyAllCharts m
  end.

Definition run_ops (fuel : nat) (ops : list op) (m : manager) : manager :=
  foldl (apply_op fuel) m ops.

Lemma destroyAllCharts_registry_ok m :
  registry_ok m → registry_ok (destroyAllCharts m).
Proof.
  intros Hm. destruct (destroyAllCharts_destroys m Hm) as (_ & Hall & _).
  split.
  - intros canvas id. simpl. by rewrite lookup_empty.
  - intros id c Hi Hd. rewrite (Hall _ _ Hi) in Hd. done.
Qed.

Lemma run_ops_registry_ok fuel ops m :
  registry_ok m → registry_ok (run_ops fuel ops m).
Proof.
  revert m. induction ops as [|o ops IH]; intros m Hm; [done|].
  simpl. apply IH. destruct o; simpl.
  - by apply createChart_registry_ok.
  - by apply updateChart_registry_ok.
  - by apply destroyChart_registry_ok.
  - by apply destroyAllCharts_registry_ok.
Qed.

(** X11.  Whatever is called on a manager, in whatever order and
    however each call ends, two charts that have not been destroyed
    never sit on the same canvas, and every such chart is the one
    registered for its canvas. *)
Theorem one_live_chart_per_canvas (fuel : nat) (ops : list op) (h : heap)
    (page : gset string) :
  let m := run_ops fuel ops (constructor h page) in
  registry_ok m ∧
  ∀ j1 j2 c1 c2,
    instances m !! j1 = Some c1 → instances m !! j2 = Some c2 →
    destroyed c1 = false → destroyed c2 = false →
    canvas_of c1 = canvas_of c2 → j1 = j2.
Proof.
  intros m.
  assert (Hm : registry_ok m)
    by (apply run_ops_registry_ok, constructor_registry_ok).
  split; [done|]. intros j1 j2 c1 c2 H1 H2 D1 D2 Hc.
  pose proof (reg_live _ Hm _ _ H1 D1) as R1.
  pose proof (reg_live _ Hm _ _ H2 D2) as R2.
  rewrite Hc in R1. congruence.
Qed.

(** X12.  [destroyChart] destroys the chart registered for the canvas
    and forgets it: no live chart is left on that canvas, the other
    canvases keep their charts, a canvas without a chart leaves the
    manager as it is, and destroying twice is destroying once. *)
Theorem destroyChart_forgets (canvasId : string) (m : manager) :
  registry_ok m →
  let m' := destroyChart canvasId m in
  registry_ok m' ∧
  charts m' !! canvasId = None ∧
  (∀ j c, instances m' !! j = Some c → canvas_of c = canvasId → destroyed c = true) ∧
  (∀ other, other ≠ canvasId → charts m' !! other = charts m !! other) ∧
  (∀ j c, instances m !! j = Some c → canvas_of c ≠ canvasId →
     instances m' !! j = Some c) ∧
  (charts m !! canvasId = None → m' = m) ∧
  destroyChart canvasId m' = m'.
Proof.
  intros Hm m'.
  assert (Hm' : registry_ok m') by (by apply destroyChart_registry_ok).
  assert (Hnone : charts m' !! canvasId = None).
  { subst m'. unfold destroyChart. destruct (charts m !! canvasId) eqn:E; [|done].
    simpl. apply lookup_delete_eq. }
  split; [done|]. split; [done|]. split.
  { intros j c Hj Hc. destruct (destroyed c) eqn:Hd; [done|].
    pose proof (reg_live _ Hm' _ _ Hj Hd) as Hr. rewrite Hc in Hr. congruence. }
  split.
  { intros other Hne. subst m'. unfold destroyChart.
    destruct (charts m !! canvasId); [|done]. simpl. by rewrite lookup_delete_ne. }
  split.
  { intros j c Hj Hc. subst m'. unfold destroyChart.
    destruct (charts m !! canvasId) as [id|] eqn:E; [|done]. simpl.
    rewrite destroy_lookup_ne; [done|]. intros <-.
    destruct (reg_canvas _ Hm _ _ E) as (c' & Hc' & Hcv). congruence. }
  split.
  { intros Hn. subst m'. unfold destroyChart. by rewrite Hn. }
  unfold destroyChart at 1. by rewrite Hnone.
Qed.

(** Witness for [destroyChart_forgets]: the partner chart and the 7-day
    chart are created, and the partner chart is destroyed; the 7-day
    chart stays. *)
Lemma destroyChart_forgets_witness :
  let m0 := constructor realm {["partner-chart"; "seven-day-chart"]} in
  let m1 := snd (createChart 8 "partner-chart" "bar" VNull VUndefined m0) in
  let m2 := snd (createChart 8 "seven-day-chart" "line" VNull VUndefined m1) in
  let m3 := destroyChart "partner-chart" m2 in
  registry_ok m2 ∧
  charts m2 !! "partner-chart" = Some 0%nat ∧
  destroyed <$> instances m2 !! 0%nat = Some false ∧
  charts m3 !! "partner-chart" = None ∧
  destroyed <$> instances m3 !! 0%nat = Some true ∧
  charts m3 !! "seven-day-chart" = Some 1%nat ∧
  destroyed <$> instances m3 !! 1%nat = Some false.
Proof.
  intros m0 m1 m2 m3.
  assert (Hm2 : registry_ok m2).
  { apply createChart_registry_ok, createChart_registry_ok, constructor_registry_ok. }
  destruct (destroyChart_forgets "partner-chart" m2 Hm2) as (_ & Hnone & _).
  split; [exact Hm2|]. split; [by vm_compute|]. split; [by vm_compute|].
  split; [exact Hnone|]. split; [by vm_compute|]. split; by vm_compute.
Defined.

(** X13.  The data of a chart can be read back: [getChartData] gives
    the data a chart was created with, and after [updateChart] the new
    data; updating one canvas leaves the data of the others, and a
    canvas without a chart has no data and is not affected by an
    update. *)
Theorem chart_data_read_back (fuel : nat) (canvasId type : string)
    (data options newData : value) (m : manager) :
  registry_ok m →
  (∀ id, fst (createChart fuel canvasId type data options m) = Created id →
     getChartData canvasId (snd (createChart fuel canvasId type data options m)) = data) ∧
  (is_Some (charts m !! canvasId) →
     getChartData canvasId (updateChart canvasId newData m) = newData) ∧
  (∀ other, other ≠ canvasId →
     getChartData other (updateChart canvasId newData m) = getChartData other m) ∧
  (charts m !! canvasId = None →
     updateChart canvasId newData m = m ∧ getChartData canvasId m = VNull).
Proof.
  intros Hm. split; [|split; [|split]].
  - intros id Hr.
    destruct (createChart_created _ _ _ _ _ _ _ Hr) as (_ & Hid & h & merged & ->).
    unfold getChartData. simpl. rewrite lookup_insert_eq.
    rewrite list_lookup_middle; [done|]. by rewrite destroy_existing_length.
  - intros [id Hid]. destruct (reg_canvas _ Hm _ _ Hid) as (c & Hc & _).
    unfold getChartData, updateChart. rewrite Hid. simpl. rewrite Hc. simpl.
    rewrite Hid. rewrite list_lookup_insert_eq; [done|]. by eapply lookup_lt_Some.
  - intros other Hne. unfold getChartData, updateChart.
    destruct (charts m !! canvasId) as [id|] eqn:Hid; simpl; [|done].
    destruct (instances m !! id) as [c|] eqn:Hc; simpl; [|done].
    destruct (charts m !! other) as [id'|] eqn:Hid'; [|done].
    rewrite list_lookup_insert_ne; [done|]. intros <-.
    destruct (reg_canvas _ Hm _ _ Hid) as (c1 & Hc1 & Hcv1).
    destruct (reg_canvas _ Hm _ _ Hid') as (c2 & Hc2 & Hcv2). congruence.
  - intros Hn. unfold updateChart, getChartData. by rewrite Hn.
Qed.

(** Witness for [chart_data_read_back]: the 7-day trend chart. *)
Lemma chart_data_read_back_witness :
  let '(m, options) := trend_setup {["seven-day-chart"]} in
  registry_ok m ∧
  getChartData "seven-day-chart"
    (snd (createChart 8 "seven-day-chart" "line" (VString "week") options m))
  = VString "week".
Proof.
  simpl.
  match goal with
  | |- registry_ok ?m ∧ _ =>
    assert (Hm : registry_ok m)
      by (split; simpl; intros *; [by rewrite lookup_empty | by rewrite lookup_nil])
  end.
  split; [exact Hm|].
  eapply (chart_data_read_back 8 "seven-day-chart" "line" (VString "week") _ VNull _ Hm).
  by vm_compute.
Defined.

End ChartFacts.

(* ===================================================================== *)
(** * Utils.truncateText and Utils.getRelativeTime (app.js) *)
(* ===================================================================== *)

Module Text.
#[local] Arguments String.append !_ _ / : simpl nomatch.

(** [CONFIG.TABLE_SETTINGS.maxCellLength]. *)
Definition maxCellLength : nat := 50.

(** A string of the program: its UTF-16 code units, which are what
    [length] counts and [substring] cuts. *)
Abbreviation text := (list N).

(** The three dots that are appended. *)
Definition dots : text := [46; 46; 46]%N.

(** What [truncateText] is given, told apart as the code does: a value
    that is falsy and no string ([undefined], [null], [false], 0); a
    string; and any other value [v], with the outcome of the test
    [v.length <= maxLength] for each [maxLength] (false throughout for
    a number, [true] or an object without [length]). *)
Inductive input :=
| Falsy
| Str (s : text)
| Other (length_within : nat → bool).

(** What [truncateText] returns: a string, or the value it was given. *)
Inductive output := Shown (s : text) | Same.

(** [Utils.truncateText(text, maxLength = maxCellLength)]; [None] is
    the [TypeError] of calling [substring] on a value that has none. *)
Definition truncateText (v : input) (maxLength : option nat) : option output :=
  let maxLength := default maxCellLength maxLength in
  match v with
  | Falsy => Some (Shown [])
  | Str [] => Some (Shown [])
  | Str s =>
    if decide (length s ≤ maxLength)%nat then Some (Shown s)
    else Some (Shown (take maxLength s ++ dots)%list)
  | Other length_within =>
    if length_within maxLength then Some Same else None
  end.

(** What [getRelativeTime] is given: nothing, a text that is no date,
    or a date as milliseconds since the epoch. *)
Inductive date_arg := NoDate | InvalidDate | ValidDate (ms : Z).

Section RelativeTime.
(** [Utils.formatDate], which renders a date in the locale. *)
Variable formatDate : date_arg → string.

(** [Utils.getRelativeTime(dateString)] at the time [now]. *)
Definition getRelativeTime (now : Z) (d : date_arg) : string :=
  match d with
  | NoDate => "N/A"
  | InvalidDate => formatDate d
  | ValidDate ms =>
    let diffInSeconds := ((now - ms) `div` 1000)%Z in
    if (diffInSeconds <? 60)%Z then "Just now"
    else if (diffInSeconds <? 3600)%Z
    then pretty (diffInSeconds `div` 60)%Z +:+ " minutes ago"
    else if (diffInSeconds <? 86400)%Z
    then pretty (diffInSeconds `div` 3600)%Z +:+ " hours ago"
    else if (diffInSeconds <? 2592000)%Z
    then pretty (diffInSeconds `div` 86400)%Z +:+ " days ago"
    else formatDate d
  end.

(** X15.  For a valid date, with [d] the whole seconds elapsed: a date
    in the future or less than a minute old reads "Just now"; otherwise
    the text counts whole minutes (1 to 59), whole hours (1 to 23) or
    whole days (1 to 29), in the largest unit that fits, and from 30
    days on the date itself is shown. *)
Theorem getRelativeTime_units (now ms : Z) :
  let d := ((now - ms) `div` 1000)%Z in
  let text := getRelativeTime now (ValidDate ms) in
  ((d < 60)%Z → text = "Just now") ∧
  ((60 ≤ d < 3600)%Z →
     ∃ n, (1 ≤ n ≤ 59)%Z ∧ (60 * n ≤ d < 60 * (n + 1))%Z ∧
          text = pretty n +:+ " minutes ago") ∧
  ((3600 ≤ d < 86400)%Z →
     ∃ n, (1 ≤ n ≤ 23)%Z ∧ (3600 * n ≤ d < 3600 * (n + 1))%Z ∧
          text = pretty n +:+ " hours ago") ∧
  ((86400 ≤ d < 2592000)%Z →
     ∃ n, (1 ≤ n ≤ 29)%Z ∧ (86400 * n ≤ d < 86400 * (n + 1))%Z ∧
          text = pretty n +:+ " days ago") ∧
  ((2592000 ≤ d)%Z → text = formatDate (ValidDate ms)).
Proof.
  intros d text. subst text. unfold getRelativeTime. fold d.
  repeat split.
  - intros H. by rewrite (proj2 (Z.ltb_lt _ _)) by lia.
  - intros H. rewrite (proj2 (Z.ltb_ge _ _)) by lia.
    rewrite (proj2 (Z.ltb_lt d 3600)) by lia.
    exists (d `div` 60)%Z. split; [|split; [|done]].
    + pose proof (Z.div_le_lower_bound d 60 1). pose proof (Z.div_lt_upper_bound d 60 60). lia.
    + pose proof (Z.mul_div_le d 60). pose proof (Z.mul_succ_div_gt d 60). lia.
  - intros H. rewrite (proj2 (Z.ltb_ge d 60)) by lia.
    rewrite (proj2 (Z.ltb_ge d 3600)) by lia.
    rewrite (proj2 (Z.ltb_lt d 86400)) by lia.
    exists (d `div` 3600)%Z. split; [|split; [|done]].
    + pose proof (Z.div_le_lower_bound d 3600 1).
      pose proof (Z.div_lt_upper_bound d 3600 24). lia.
    + pose proof (Z.mul_div_le d 3600). pose proof (Z.mul_succ_div_gt d 3600). lia.
  - intros H. rewrite (proj2 (Z.ltb_ge d 60)) by lia.
    rewrite (proj2 (Z.ltb_ge d 3600)) by lia.
    rewrite (proj2 (Z.ltb_ge d 86400)) by lia.
    rewrite (proj2 (Z.ltb_lt d 2592000)) by lia.
    exists (d `div` 86400)%Z. split; [|split; [|done]].
    + pose proof (Z.div_le_lower_bound d 86400 1).
      pose proof (Z.div_lt_upper_bound d 86400 30). lia.
    + pose proof (Z.mul_div_le d 86400). pose proof (Z.mul_succ_div_gt d 86400). lia.
  - intros H. rewrite (proj2 (Z.ltb_ge d 60)) by lia.
    rewrite (proj2 (Z.ltb_ge d 3600)) by lia.
    rewrite (proj2 (Z.ltb_ge d 86400)) by lia.
    by rewrite (proj2 (Z.ltb_ge d 2592000)) by lia.
Qed.

End RelativeTime.

(** X14.  [truncateText] returns a string of at most [maxLength] code
    units as it is; of a longer one it keeps the first [maxLength] code
    units and adds three dots, so the result is up to three code units
    longer than [maxLength]; truncating what was truncated changes
    nothing.  A falsy value gives the empty string; any other value is
    returned as it is when its [length] is within [maxLength] and
    raises a [TypeError] otherwise. *)
Theorem truncateText_bounds (s : text) (maxLength : nat) :
  ∃ r, truncateText (Str s) (Some maxLength) = Some (Shown r) ∧
  ((length s ≤ maxLength)%nat → r = s) ∧
  ((maxLength < length s)%nat →
     r = (take maxLength s ++ dots)%list ∧ length r = (maxLength + 3)%nat) ∧
  (length r ≤ maxLength + 3)%nat ∧
  truncateText (Str r) (Some maxLength) = Some (Shown r) ∧
  truncateText Falsy (Some maxLength) = Some (Shown []) ∧
  (∀ within, truncateText (Other within) (Some maxLength)
             = if within maxLength then Some Same else None).
Proof.
  assert (Hlong : ∀ x : text, (maxLength < length x)%nat →
            truncateText (Str x) (Some maxLength)
            = Some (Shown (take maxLength x ++ dots)%list)).
  { intros x Hx. unfold truncateText. simpl default.
    destruct x; [simpl in Hx; lia|]. by rewrite decide_False by lia. }
  assert (Hshort : ∀ x : text, (length x ≤ maxLength)%nat →
            truncateText (Str x) (Some maxLength) = Some (Shown x)).
  { intros x Hx. unfold truncateText. simpl default.
    destruct x; [done|]. by rewrite decide_True. }
  destruct (decide (length s ≤ maxLength)%nat) as [Hs|Hl].
  - exists s. split; [by apply Hshort|]. split; [done|]. split; [lia|].
    split; [lia|]. split; [by apply Hshort | done].
  - exists (take maxLength s ++ dots)%list.
    assert (Hlen : length (take maxLength s ++ dots)%list = (maxLength + 3)%nat).
    { rewrite length_app, length_take. simpl. lia. }
    split; [apply Hlong; lia|]. split; [lia|]. split; [done|].
    split; [lia|]. split; [|done].
    rewrite Hlong by lia. do 2 f_equal.
    rewrite take_app_le by (rewrite length_take; lia).
    by rewrite take_take, Nat.min_id.
Qed.

End Text.

(* ===================================================================== *)
(** * The ticket list of [AdminPanel] (app.js) and its requests (charts.js) *)
(* ===================================================================== *)

Module Tickets.

Inductive section := Searches | Clicks | Users | TicketList.

#[global] Instance section_eq_dec : EqDecision section.
Proof. solve_decision. Defined.

(** A value of a query parameter object: a number or a text. *)
Inductive pvalue := Num (n : Z) | Str (s : string).

Abbreviation params := (gmap string pvalue).

(** [CONFIG.DEFAULT_PAGE_SIZE] and [CONFIG.EXPORT.maxRecords]. *)
Definition DEFAULT_PAGE_SIZE : Z := 50.
Definition maxRecords : Z := 10000.

(** [AdminAPI.getTickets(page, perPage, filters)]: the endpoint and the
    parameter object [{page, per_page: perPage, ...filters}] handed to
    [get]. *)
Definition getTickets (page perPage : Z) (filters : params) : string * params :=
  ("/admin/tickets",
   filters ∪ <["per_page" := Num perPage]> (<["page" := Num page]> ∅)).

(** [AdminAPI.exportData(endpoint, filters)]:
    [{...filters, export: 'csv', per_page: maxRecords}]. *)
Definition exportData (endpoint : string) (filters : params) : string * params :=
  (endpoint, <["per_page" := Num maxRecords]> (<["export" := Str "csv"]> filters)).

(** A ticket of a response: its status (a status that is no string
    behaves as one that is not "open"), the two values that the table
    shows truncated, and whether every value that the row prints can be
    turned into text (an object with a property [toString], which
    parsed JSON never makes a function, cannot). *)
Record ticket := {
  id : Z;
  status : string;
  user_id : Text.input;
  user_note : Text.input;
  printable : bool }.

(** [data.tickets]: a falsy value (the property is missing or
    [null]), a truthy value that is no array, or an array, whose
    elements are tickets or [null]. *)
Inductive tickets_field :=
| NoList
| NotArray
| Array (items : list (option ticket)).

(** The element [#ticket-badge]. *)
Record badge := { textContent : string; display : string }.

(** The body of a tickets response. *)
Record data := {
  tickets : tickets_field;
  page : option Z;
  total_pages : option Z }.

(** What the awaited request gives [loadTickets]: a rejection (or a
    body that is [null], of which [data.tickets] cannot be read), or a
    body. *)
Inductive response := Rejected | Resolved (d : data).

(** The part of the page and of [AdminPanel] that the ticket list
    uses.  The buttons and the filter inputs are on the page, or
    [setupEventListeners] would have thrown; the page information of a
    section, the body of the tickets table (its rows given by the
    tickets they show) and the badge are [None] when the page has no
    such element. *)
Record panel := {
  currentPage : section → Z;
  dateRange : string * string;
  status_input : string;
  user_input : string;
  prev_disabled : section → bool;
  next_disabled : section → bool;
  page_info : section → option string;
  table : option (list ticket);
  ticket_badge : option badge;
  console : list string;
  requests : list (string * params) }.

(** The assignment [f[s] = v] on a table indexed by the sections. *)
Definition assign {V} (s : section) (v : V) (f : section → V) : section → V :=
  λ s', if decide (s' = s) then v else f s'.

Definition with_page (s : section) (n : Z) (p : panel) : panel :=
  {| currentPage := assign s n (currentPage p); dateRange := dateRange p;
     status_input := status_input p; user_input := user_input p;
     prev_disabled := prev_disabled p; next_disabled := next_disabled p;
     page_info := page_info p; table := table p;
     ticket_badge := ticket_badge p; console := console p;
     requests := requests p |}.

Definition with_inputs (st us : string) (dr : string * string) (p : panel) : panel :=
  {| currentPage := currentPage p; dateRange := dr;
     status_input := st; user_input := us;
     prev_disabled := prev_disabled p; next_disabled := next_disabled p;
     page_info := page_info p; table := table p;
     ticket_badge := ticket_badge p; console := console p;
     requests := requests p |}.

Definition with_info (s : section) (line : string) (p : panel) : panel :=
  {| currentPage := currentPage p; dateRange := dateRange p;
     status_input := status_input p; user_input := user_input p;
     prev_disabled := prev_disabled p; next_disabled := next_disabled p;
     page_info := assign s (Some line) (page_info p); table := table p;
     ticket_badge := ticket_badge p; console := console p;
     requests := requests p |}.

Definition with_buttons (s : section) (prev next : bool) (p : panel) : panel :=
  {| currentPage := currentPage p; dateRange := dateRange p;
     status_input := status_input p; user_input := user_input p;
     prev_disabled := assign s prev (prev_disabled p);
     next_disabled := assign s next (next_disabled p);
     page_info := page_info p; table := table p;
     ticket_badge := ticket_badge p; console := console p;
     requests := requests p |}.

Definition with_table (rows : list ticket) (p : panel) : panel :=
  {| currentPage := currentPage p; dateRange := dateRange p;
     status_input := status_input p; user_input := user_input p;
     prev_disabled := prev_disabled p; next_disabled := next_disabled p;
     page_info := page_info p; table := Some rows;
     ticket_badge := ticket_badge p; console := console p;
     requests := requests p |}.

Definition with_badge (b : badge) (p : panel) : panel :=
  {| currentPage := currentPage p; dateRange := dateRange p;
     status_input := status_input p; user_input := user_input p;
     prev_disabled := prev_disabled p; next_disabled := next_disabled p;
     page_info := page_info p; table := table p;
     ticket_badge := Some b; console := console p;
     requests := requests p |}.

Definition log (line : string) (p : panel) : panel :=
  {| currentPage := currentPage p; dateRange := dateRange p;
     status_input := status_input p; user_input := user_input p;
     prev_disabled := prev_disabled p; next_disabled := next_disabled p;
     page_info := page_info p; table := table p;
     ticket_badge := ticket_badge p; console := (console p ++ [line])%list;
     requests := requests p |}.

Definition send (r : string * params) (p : panel) : panel :=
  {| currentPage := currentPage p; dateRange := dateRange p;
     status_input := status_input p; user_input := user_input p;
     prev_disabled := prev_disabled p; next_disabled := next_disabled p;
     page_info := page_info p; table := table p;
     ticket_badge := ticket_badge p; console := console p;
     requests := (requests p ++ [r])%list |}.

(** The constructor sets every page to 1; the rest is the page as it
    was loaded. *)
Definition constructor (dr : string * string) (st us : string)
    (prev next : section → bool) (info : section → option string)
    (rows : option (list ticket)) (b : option badge) : panel :=
  {| currentPage := λ _, 1%Z; dateRange := dr;
     status_input := st; user_input := us;
     prev_disabled := prev; next_disabled := next;
     page_info := info; table := rows;
     ticket_badge := b; console := []; requests := [] |}.

(** [if (v) filters.k = v]. *)
Definition set_if (k v : string) (filters : params) : params :=
  if decide (v = "") then filters else <[k := Str v]> filters.

Definition getTicketFilters (p : panel) : params :=
  let filters := ∅ in
  let filters := set_if "status" (status_input p) filters in
  let filters := set_if "user_id" (user_input p) filters in
  let filters := set_if "start_date" (dateRange p).1 filters in
  let filters := set_if "end_date" (dateRange p).2 filters in
  filters.

(** A number of the response in a template: [undefined] when missing. *)
Definition shown_number (n : option Z) : string :=
  match n with
  | Some z => pretty z
  | None => "undefined"
  end.

(** [updatePagination(section, currentPage, totalPages)]; a comparison
    with [undefined] is false.  [None] is the [TypeError] of writing to
    the page information when the page has none. *)
Definition updatePagination (s : section) (page total : option Z) (p : panel)
    : option panel :=
  match page_info p s with
  | None => None
  | Some _ =>
    let prev := match page with Some c => bool_decide (c ≤ 1)%Z | None => false end in
    let next := match page, total with
                | Some c, Some t => bool_decide (t ≤ c)%Z
                | _, _ => false
                end in
    Some (with_buttons s prev next
            (with_info s ("Page " +:+ shown_number page +:+ " of " +:+ shown_number total) p))
  end.

(** The row that [updateTicketsTable] builds for an element of the
    array; [None] is the [TypeError] of reading a property of [null],
    of [truncateText], or of turning a value into text. *)
Definition row (t : option ticket) : option ticket :=
  t ← t;
  _ ← Text.truncateText (user_id t) (Some 8);
  _ ← Text.truncateText (user_note t) (Some 50);
  if printable t then Some t else None.

(** [tickets.forEach(...)]: the rows are appended in turn to [rows]
    until one cannot be built. *)
Fixpoint append_rows (items : list (option ticket)) (rows : list ticket)
    : bool * list ticket :=
  match items with
  | [] => (true, rows)
  | t :: rest =>
    match row t with
    | Some r => append_rows rest (rows ++ [r])%list
    | None => (false, rows)
    end
  end.

(** [updateTicketsTable(tickets)]: whether it completes, and the panel
    it leaves.  Without a table body nothing is done; otherwise the
    body is emptied first. *)
Definition updateTicketsTable (ts : tickets_field) (p : panel) : bool * panel :=
  match table p with
  | None => (false, p)
  | Some _ =>
    match ts with
    | Array items =>
      let '(done, rows) := append_rows items [] in (done, with_table rows p)
    | _ => (false, with_table [] p)
    end
  end.

Definition is_open (t : ticket) : bool := bool_decide (status t = "open").

(** [tickets.filter(ticket => ticket.status === 'open').length]; [None]
    is the [TypeError] of reading the status of [null]. *)
Fixpoint count_open (items : list (option ticket)) : option nat :=
  match items with
  | [] => Some O
  | None :: _ => None
  | Some t :: rest => (λ n, if is_open t then S n else n) <$> count_open rest
  end.

(** [updateTicketBadge(tickets)]; [None] is the [TypeError] that a
    value without [filter], a [null] among the tickets or a missing
    badge raises. *)
Definition updateTicketBadge (ts : tickets_field) (p : panel) : option panel :=
  match ts with
  | Array items =>
    openTickets ← count_open items;
    _ ← ticket_badge p;
    Some (with_badge {| textContent := pretty openTickets;
                        display := if decide (0 < openTickets)%nat
                                   then "inline" else "none" |} p)
  | _ => None
  end.

(** [loadTickets] up to its [await]: the request is sent. *)
Definition loadTickets (p : panel) : panel :=
  let filters := getTicketFilters p in
  send (getTickets (currentPage p TicketList) DEFAULT_PAGE_SIZE filters) p.

(** [data.tickets || []]. *)
Definition or_empty (ts : tickets_field) : tickets_field :=
  match ts with
  | NoList => Array []
  | _ => ts
  end.

(** [loadTickets] after its [await]: the table, the pagination and the
    badge are updated in turn, and the first exception ends the work
    with an entry in the console. *)
Definition loadTickets_resume (r : response) (p : panel) : panel :=
  match r with
  | Rejected => log "Error loading tickets:" p
  | Resolved d =>
    let '(done, p1) := updateTicketsTable (or_empty (tickets d)) p in
    if done then
      match updatePagination TicketList (page d) (total_pages d) p1 with
      | Some p2 =>
        match updateTicketBadge (tickets d) p2 with
        | Some p3 => p3
        | None => log "Error loading tickets:" p2
        end
      | None => log "Error loading tickets:" p1
      end
    else log "Error loading tickets:" p1
  end.

Definition load (s : section) (p : panel) : panel :=
  match s with
  | Searches => log "Loading searches..." p
  | Clicks => log "Loading clicks..." p
  | Users => log "Loading users..." p
  | TicketList => loadTickets p
  end.

(** What happens to the panel: a click on a button (a disabled button
    gives no click), a change of an input, a response that arrives,
    and any other call of [loadTickets] (a debounced filter, the auto
    refresh, the end of an update). *)
Inductive event :=
  | ClickPrev (s : section)
  | ClickNext (s : section)
  | Input (st us : string) (dr : string * string)
  | Arrives (r : response)
  | Reload.

Definition step (p : panel) (e : event) : panel :=
  match e with
  | ClickPrev s =>
    if prev_disabled p s then p
    else if decide (1 < currentPage p s)%Z
         then load s (with_page s (currentPage p s - 1)%Z p)
         else p
  | ClickNext s =>
    if next_disabled p s then p
    else load s (with_page s (currentPage p s + 1)%Z p)
  | Input st us dr => with_inputs st us dr p
  | Arrives r => loadTickets_resume r p
  | Reload => loadTickets p
  end.

Definition run (es : list event) (p : panel) : panel := foldl step p es.

(** A request of the ticket list as it should be: the page is a number
    from 1 on, the page size is the default one, and every other
    parameter is one of the four filters with a text that is not
    empty. *)
Definition request_ok (r : string * params) : Prop :=
  r.1 = "/admin/tickets" ∧
  (∃ n, r.2 !! "page" = Some (Num n) ∧ (1 ≤ n)%Z) ∧
  r.2 !! "per_page" = Some (Num DEFAULT_PAGE_SIZE) ∧
  ∀ k v, r.2 !! k = Some v → k ≠ "page" → k ≠ "per_page" →
    k ∈ ["status"; "user_id"; "start_date"; "end_date"] ∧
    ∃ s, v = Str s ∧ s ≠ "".

End Tickets.

Module TicketFacts.
Import Tickets.

Lemma set_if_lookup (k v : string) (filters : params) (k' : string) :
  set_if k v filters !! k' =
  if decide (k' = k ∧ v ≠ "") then Some (Str v) else filters !! k'.
Proof.
  unfold set_if. destruct (decide (v = "")) as [->|Hv].
  - rewrite decide_False; [done | naive_solver].
  - destruct (decide (k' = k)) as [->|Hk].
    + rewrite lookup_insert_eq, decide_True; done.
    + rewrite lookup_insert_ne by done. rewrite decide_False; [done | naive_solver].
Qed.

Lemma getTicketFilters_lookup (p : panel) (k : string) (v : pvalue) :
  getTicketFilters p !! k = Some v →
  k ∈ ["status"; "user_id"; "start_date"; "end_date"] ∧ ∃ s, v = Str s ∧ s ≠ "".
Proof.
  unfold getTicketFilters. cbv zeta. rewrite !set_if_lookup.
  repeat case_decide; intros Hv; simplify_eq;
    try (rewrite lookup_empty in Hv; discriminate);
    (split; [set_solver | naive_solver]).
Qed.

Lemma getTicketFilters_not (p : panel) (k : string) :
  k ∉ ["status"; "user_id"; "start_date"; "end_date"] →
  getTicketFilters p !! k = None.
Proof.
  intros Hk. destruct (getTicketFilters p !! k) as [v|] eqn:E; [|done].
  apply getTicketFilters_lookup in E as [? _]. done.
Qed.

Lemma getTickets_lookup (n perPage : Z) (filters : params) (k : string) :
  (getTickets n perPage filters).2 !! k =
  match filters !! k with
  | Some v => Some v
  | None => if decide (k = "per_page") then Some (Num perPage)
            else if decide (k = "page") then Some (Num n) else None
  end.
Proof.
  unfold getTickets. cbn [snd]. rewrite lookup_union.
  destruct (filters !! k) as [v|]; [by rewrite union_Some_l|].
  rewrite (left_id None _).
  destruct (decide (k = "per_page")) as [->|H1]; [by rewrite lookup_insert_eq|].
  rewrite lookup_insert_ne by done.
  destruct (decide (k = "page")) as [->|H2]; [by rewrite lookup_insert_eq|].
  by rewrite lookup_insert_ne.
Qed.

Lemma loadTickets_request_ok (p : panel) :
  (1 ≤ currentPage p TicketList)%Z →
  request_ok (getTickets (currentPage p TicketList) DEFAULT_PAGE_SIZE
                         (getTicketFilters p)).
Proof.
  intros Hp. split; [done|]. split; [|split].
  - exists (currentPage p TicketList). split; [|done].
    rewrite getTickets_lookup, getTicketFilters_not by set_solver. done.
  - rewrite getTickets_lookup, getTicketFilters_not by set_solver. done.
  - intros k v Hk Hn1 Hn2. rewrite getTickets_lookup in Hk.
    destruct (getTicketFilters p !! k) as [v'|] eqn:E.
    + simplify_eq. by apply getTicketFilters_lookup in E.
    + rewrite decide_False, decide_False in Hk by done. done.
Qed.

(** What every step keeps. *)
Definition inv (p : panel) : Prop :=
  (∀ s, (1 ≤ currentPage p s)%Z) ∧ Forall request_ok (requests p).

Lemma loadTickets_inv (p : panel) : inv p → inv (loadTickets p).
Proof.
  intros [Hp Hr]. split; [done|]. unfold loadTickets. cbn.
  apply Forall_app. split; [done|]. apply Forall_singleton.
  by apply loadTickets_request_ok.
Qed.

Lemma load_inv (s : section) (p : panel) : inv p → inv (load s p).
Proof. destruct s; try done. apply loadTickets_inv. Qed.

Lemma with_page_inv (s : section) (n : Z) (p : panel) :
  (1 ≤ n)%Z → inv p → inv (with_page s n p).
Proof.
  intros Hn [Hp Hr]. split; [|done]. intros s'. cbn. unfold assign.
  by case_decide.
Qed.

Lemma updateTicketsTable_pages (ts : tickets_field) (p : panel) :
  currentPage (updateTicketsTable ts p).2 = currentPage p ∧
  requests (updateTicketsTable ts p).2 = requests p.
Proof.
  unfold updateTicketsTable. destruct (table p); [|done].
  destruct ts as [| |items]; try done. by destruct (append_rows items []).
Qed.

(** A response changes neither a page number nor the requests sent. *)
Lemma loadTickets_resume_pages (r : response) (p : panel) :
  currentPage (loadTickets_resume r p) = currentPage p ∧
  requests (loadTickets_resume r p) = requests p.
Proof.
  destruct r as [|d]; [done|]. cbn [loadTickets_resume].
  pose proof (updateTicketsTable_pages (or_empty (tickets d)) p) as [H1 H2].
  destruct (updateTicketsTable (or_empty (tickets d)) p) as [done p1].
  cbn [snd] in H1, H2. destruct done; [|done].
  unfold updatePagination. destruct (page_info p1 TicketList); [|done].
  unfold updateTicketBadge. destruct (tickets d) as [| |items]; try done.
  destruct (count_open items); [|done]. cbn.
  by destruct (ticket_badge p1).
Qed.

Lemma step_inv (p : panel) (e : event) : inv p → inv (step p e).
Proof.
  intros Hi. destruct e as [s|s|st us dr|r|]; cbn [step].
  - destruct (prev_disabled p s); [done|]. case_decide; [|done].
    apply load_inv, with_page_inv; [lia | done].
  - destruct (next_disabled p s); [done|].
    apply load_inv, with_page_inv; [|done]. destruct Hi as [Hp _].
    specialize (Hp s). lia.
  - done.
  - destruct (loadTickets_resume_pages r p) as [Hp Hr].
    destruct Hi as [Hpg Hrq]. split; [by rewrite Hp | by rewrite Hr].
  - by apply loadTickets_inv.
Qed.

Lemma run_inv (es : list event) (p : panel) : inv p → inv (run es p).
Proof.
  revert p. induction es as [|e es IH]; intros p Hi; [done|].
  apply IH. by apply step_inv.
Qed.

(** X16.  Whatever is clicked, typed or received after the panel is
    built, no page number falls below 1, and every request that the
    ticket list has sent asks [/admin/tickets] for a page from 1 on
    with the default page size and, besides, only with filters out of
    status, user, start and end date whose text is not empty. *)
Theorem ticket_requests_well_formed (dr : string * string) (st us : string)
    (prev next : section → bool) (info : section → option string)
    (rows : option (list ticket)) (b : option badge) (es : list event) :
  let p := run es (constructor dr st us prev next info rows b) in
  (∀ s, (1 ≤ currentPage p s)%Z) ∧ Forall request_ok (requests p).
Proof. apply run_inv. split; [done | by apply Forall_nil]. Qed.

Lemma run_snoc (es : list event) (e : event) (p : panel) :
  run (es ++ [e])%list p = step (run es p) e.
Proof. unfold run. by rewrite foldl_app. Qed.

Lemma replicate_snoc {A} (n : nat) (x : A) :
  replicate (S n) x = (replicate n x ++ [x])%list.
Proof. induction n as [|n IH]; [done|]. cbn. f_equal. exact IH. Qed.

(** X17.  The button for the next page is disabled only when a
    response arrives: while it is enabled, [n] clicks in a row move
    the ticket list [n] pages on and send [n] requests, whatever the
    number of pages is. *)
Theorem next_clicks_unbounded (p : panel) (n : nat) :
  next_disabled p TicketList = false →
  let p' := run (replicate n (ClickNext TicketList)) p in
  currentPage p' TicketList = (currentPage p TicketList + Z.of_nat n)%Z ∧
  length (requests p') = (length (requests p) + n)%nat ∧
  next_disabled p' TicketList = false.
Proof.
  intros Hn. induction n as [|n IH].
  - cbn. split; [lia|]. split; [lia | done].
  - rewrite replicate_snoc. cbv zeta. rewrite run_snoc.
    cbv zeta in IH. destruct IH as (Hp & Hl & Hd).
    set (q := run (replicate n (ClickNext TicketList)) p) in *.
    cbn [step]. rewrite Hd. cbn. unfold assign. rewrite decide_True by done.
    rewrite length_app, Hp, Hl. cbn. split; [lia|]. split; [lia | done].
Qed.

Lemma next_clicks_unbounded_witness :
  let p := constructor ("", "") "" "" (λ _, true) (λ _, false) (λ _, Some "")
             (Some []) (Some {| textContent := "0"; display := "none" |}) in
  currentPage (run (replicate 3 (ClickNext TicketList)) p) TicketList = 4%Z.
Proof.
  exact (proj1 (next_clicks_unbounded
    (constructor ("", "") "" "" (λ _, true) (λ _, false) (λ _, Some "")
       (Some []) (Some {| textContent := "0"; display := "none" |})) 3 eq_refl)).
Defined.

(** Every element is a ticket whose row can be built. *)
Definition renders (items : list (option ticket)) : Prop :=
  Forall (λ t, is_Some (row t)) items.

(** The tickets of an array without [null]. *)
Definition the_tickets (items : list (option ticket)) : list ticket :=
  omap (λ t : option ticket, t) items.

Lemma row_Some (t : option ticket) (r : ticket) : row t = Some r → t = Some r.
Proof.
  unfold row. destruct t as [t|]; [|done]. cbn.
  destruct (Text.truncateText (user_id t) (Some 8)); [|done]. cbn.
  destruct (Text.truncateText (user_note t) (Some 50)); [|done]. cbn.
  destruct (printable t); [|done]. by intros [= ->].
Qed.

Lemma append_rows_renders (items : list (option ticket)) (rows : list ticket) :
  renders items → append_rows items rows = (true, (rows ++ the_tickets items)%list).
Proof.
  revert rows. induction items as [|t items IH]; intros rows Hr.
  - cbn. by rewrite app_nil_r.
  - apply Forall_cons in Hr as [[r Hrow] Hr]. cbn [append_rows]. rewrite Hrow.
    apply row_Some in Hrow as ->. rewrite (IH _ Hr). cbn. by rewrite <- app_assoc.
Qed.

Lemma append_rows_fails (items : list (option ticket)) (rows : list ticket) :
  ¬ renders items →
  ∃ built rest bad,
    items = (built ++ bad :: rest)%list ∧ renders built ∧ row bad = None ∧
    append_rows items rows = (false, (rows ++ the_tickets built)%list).
Proof.
  revert rows. induction items as [|t items IH]; intros rows Hn.
  - destruct Hn. apply Forall_nil_2.
  - cbn [append_rows]. destruct (row t) as [r|] eqn:Hrow.
    + destruct (IH (rows ++ [r])%list) as (built & rest & bad & -> & Hb & Hbad & Heq).
      { intros Hr. apply Hn. apply Forall_cons. split; [by eexists | done]. }
      exists (t :: built), rest, bad. split; [done|]. split.
      { apply Forall_cons. split; [by eexists | done]. }
      split; [done|]. rewrite Heq. apply row_Some in Hrow as ->. cbn.
      by rewrite <- app_assoc.
    + exists [], items, t. split; [done|]. split; [apply Forall_nil_2|].
      split; [done|]. cbn. by rewrite app_nil_r.
Qed.

Lemma count_open_tickets (items : list (option ticket)) :
  renders items →
  count_open items = Some (length (List.filter is_open (the_tickets items))).
Proof.
  induction items as [|t items IH]; intros Hr; [done|].
  apply Forall_cons in Hr as [[r Hrow] Hr]. apply row_Some in Hrow as ->.
  cbn. rewrite (IH Hr). cbn. by destruct (is_open r).
Qed.

Lemma filter_is_open_length (ts : list ticket) :
  (0 < length (List.filter is_open ts))%nat ↔ ∃ t, t ∈ ts ∧ status t = "open".
Proof.
  induction ts as [|t ts IH]; cbn.
  - split; [lia|]. intros (t & Ht & _). by apply elem_of_nil in Ht.
  - unfold is_open at 1. case_bool_decide as Ho; cbn.
    + split; [|lia]. intros _. exists t. split; [apply list_elem_of_here | done].
    + rewrite IH. split.
      * intros (t' & Ht' & Ho'). exists t'. split; [by apply list_elem_of_further | done].
      * intros (t' & Ht' & Ho'). apply elem_of_cons in Ht' as [->|Ht']; [done|].
        by exists t'.
Qed.

(** X18.  On a page that has the table body, the page information and
    the badge: when a tickets response arrives with an array of
    tickets whose rows can all be built, the table shows these tickets,
    and the badge shows the number of those whose status is "open" and
    is visible exactly when there is one.  When the response has no
    list, the table is emptied and the buttons are updated, but the
    badge keeps what it showed and an error goes to the console.  When
    a row cannot be built (a [null] ticket, a user id or note that is
    neither falsy nor a string and has no fitting length, a value that
    cannot be printed), the table keeps the rows built before it,
    neither buttons nor badge are touched, and an error goes to the
    console. *)
Theorem badge_shows_open_tickets (p : panel) (items : list (option ticket))
    (pg tot : option Z) (old : list ticket) (info : string) (b : badge) :
  table p = Some old → page_info p TicketList = Some info →
  ticket_badge p = Some b →
  let arrives ts := loadTickets_resume
                      (Resolved {| tickets := ts; page := pg; total_pages := tot |}) p in
  (renders items →
     let shown := arrives (Array items) in
     table shown = Some (the_tickets items) ∧
     console shown = console p ∧
     ∃ b', ticket_badge shown = Some b' ∧
       textContent b' = pretty (length (List.filter is_open (the_tickets items))) ∧
       (display b' = "inline" ↔ ∃ t, t ∈ the_tickets items ∧ status t = "open") ∧
       (display b' = "none" ↔ ∀ t, t ∈ the_tickets items → status t ≠ "open")) ∧
  (let stale := arrives NoList in
   table stale = Some [] ∧
   ticket_badge stale = Some b ∧
   console stale = (console p ++ ["Error loading tickets:"])%list ∧
   (renders items →
      prev_disabled stale = prev_disabled (arrives (Array items)) ∧
      next_disabled stale = next_disabled (arrives (Array items)))) ∧
  (¬ renders items →
     let broken := arrives (Array items) in
     (∃ built rest bad, items = (built ++ bad :: rest)%list ∧ renders built ∧
        row bad = None ∧ table broken = Some (the_tickets built)) ∧
     ticket_badge broken = Some b ∧
     prev_disabled broken = prev_disabled p ∧
     next_disabled broken = next_disabled p ∧
     console broken = (console p ++ ["Error loading tickets:"])%list).
Proof.
  intros Ht Hi Hb arrives. subst arrives. cbv zeta.
  cbn [loadTickets_resume tickets page total_pages or_empty].
  unfold updateTicketsTable. rewrite Ht.
  split; [|split].
  - intros Hr. rewrite (append_rows_renders _ _ Hr). cbn [app].
    unfold updatePagination. cbn. rewrite Hi. cbn.
    unfold updateTicketBadge. rewrite (count_open_tickets _ Hr). cbn. rewrite Hb. cbn.
    split; [done|]. split; [done|]. eexists. split; [done|]. cbn.
    split; [done|]. rewrite <- filter_is_open_length.
    case_decide as H0.
    + split; [done|]. split; [done|]. intros Hall.
      apply filter_is_open_length in H0 as (t & Hin & Ho). by destruct (Hall t Hin).
    + split; [split; [done | intros; lia]|]. split; [|done].
      intros _ t Hin Ho. apply H0, filter_is_open_length. by exists t.
  - cbn. unfold updatePagination. cbn. rewrite Hi. cbn.
    split; [done|]. split; [done|]. split; [done|].
    intros Hr. rewrite (append_rows_renders _ _ Hr). cbn.
    unfold updatePagination. cbn. rewrite Hi. cbn.
    unfold updateTicketBadge. rewrite (count_open_tickets _ Hr). cbn. rewrite Hb. done.
  - intros Hn. destruct (append_rows_fails items [] Hn)
      as (built & rest & bad & Heq & Hbuilt & Hbad & Happ).
    rewrite Happ. cbn. split; [by exists built, rest, bad|]. done.
Qed.

(** Witness for [badge_shows_open_tickets]: a response with an open and
    a resolved ticket arrives on a page that shows nothing yet. *)
Lemma badge_shows_open_tickets_witness :
  let t1 := {| id := 1; status := "open"; user_id := Text.Str [117; 49]%N;
               user_note := Text.Falsy; printable := true |} in
  let t2 := {| id := 2; status := "resolved"; user_id := Text.Str [117; 50]%N;
               user_note := Text.Str [111; 107]%N; printable := true |} in
  let p := constructor ("", "") "" "" (λ _, true) (λ _, true) (λ _, Some "")
             (Some []) (Some {| textContent := "0"; display := "none" |}) in
  let shown := loadTickets_resume
                 (Resolved {| tickets := Array [Some t1; Some t2];
                              page := Some 1%Z; total_pages := Some 1%Z |}) p in
  table shown = Some [t1; t2] ∧
  ticket_badge shown = Some {| textContent := "1"; display := "inline" |}.
Proof.
  cbv zeta.
  pose proof (badge_shows_open_tickets
    (constructor ("", "") "" "" (λ _, true) (λ _, true) (λ _, Some "")
       (Some []) (Some {| textContent := "0"; display := "none" |}))
    [Some {| id := 1; status := "open"; user_id := Text.Str [117; 49]%N;
             user_note := Text.Falsy; printable := true |};
     Some {| id := 2; status := "resolved"; user_id := Text.Str [117; 50]%N;
             user_note := Text.Str [111; 107]%N; printable := true |}]
    (Some 1%Z) (Some 1%Z) [] "" {| textContent := "0"; display := "none" |}
    eq_refl eq_refl eq_refl) as [Hshown _].
  cbv zeta in Hshown.
  destruct Hshown as (Htable & _ & b' & Hb' & _).
  { apply Forall_cons. split; [by eexists|]. apply Forall_cons. split; [by eexists|].
    apply Forall_nil_2. }
  split; [exact Htable|]. by vm_compute.
Defined.

(** X19.  In a list request a filter named [page] or [per_page]
    replaces the page and the page size that were asked for; in an
    export no filter can: [export] is always [csv] and [per_page]
    always the maximum, and every other filter is passed on. *)
Theorem filters_and_paging (n perPage : Z) (endpoint : string) (filters : params) (k : string) :
  (getTickets n perPage filters).2 !! k =
    match filters !! k with
    | Some v => Some v
    | None => if decide (k = "per_page") then Some (Num perPage)
              else if decide (k = "page") then Some (Num n) else None
    end ∧
  (exportData endpoint filters).2 !! k =
    if decide (k = "per_page") then Some (Num maxRecords)
    else if decide (k = "export") then Some (Str "csv") else filters !! k.
Proof.
  split; [apply getTickets_lookup|]. unfold exportData. cbn [snd].
  destruct (decide (k = "per_page")) as [->|H1]; [by rewrite lookup_insert_eq|].
  rewrite lookup_insert_ne by done.
  destruct (decide (k = "export")) as [->|H2]; [by rewrite lookup_insert_eq|].
  by rewrite lookup_insert_ne.
Qed.

End TicketFacts.

(* ===================================================================== *)
(** * Utils.downloadCSV (app.js) *)
(* ===================================================================== *)

Module Csv.
#[local] Arguments String.append !_ _ / : simpl nomatch.

Definition quote : ascii := "034"%char.
Definition comma : ascii := ","%char.
Definition newline : ascii := "010"%char.

(** A value of a row: a string, a value that is no string (with the
    text that [join] makes of it), or [null] and [undefined]. *)
Inductive cell := Text (s : string) | Other (shown : string) | Nullish.

(** A row object, its keys in the order of [Object.keys]. *)
Abbreviation row := (list (string * cell)).

(** The functions that a row inherits from [Object.prototype], by the
    name of the property and the name of the function. *)
Definition Object_prototype_functions : list (string * string) :=
  [("constructor", "Object"); ("hasOwnProperty", "hasOwnProperty");
   ("isPrototypeOf", "isPrototypeOf");
   ("propertyIsEnumerable", "propertyIsEnumerable");
   ("toLocaleString", "toLocaleString"); ("toString", "toString");
   ("valueOf", "valueOf"); ("__defineGetter__", "__defineGetter__");
   ("__defineSetter__", "__defineSetter__");
   ("__lookupGetter__", "__lookupGetter__");
   ("__lookupSetter__", "__lookupSetter__")].

(** [row[header]] for a [header] that is no key of the row: what the
    row inherits from [Object.prototype].  A function is no string, is
    returned as it is and is written by [join] as its source text;
    [__proto__] gives the prototype itself. *)
Definition inherited (header : string) : cell :=
  match list_find (λ kv, kv.1 = header) Object_prototype_functions with
  | Some (_, (_, name)) => Other ("function " +:+ name +:+ "() { [native code] }")
  | None => if decide (header = "__proto__") then Other "[object Object]" else Nullish
  end.

(** [row[header]]. *)
Fixpoint get (header : string) (r : row) : cell :=
  match r with
  | [] => inherited header
  | (k, v) :: r => if decide (k = header) then v else get header r
  end.

(** [value.includes(c)] for a text [c] of one character. *)
Fixpoint includes (c : ascii) (s : string) : bool :=
  match s with
  | "" => false
  | String x s => bool_decide (x = c) || includes c s
  end.

(** [value.replace] of every quote by two quotes. *)
Fixpoint replace_quotes (s : string) : string :=
  match s with
  | "" => ""
  | String x s =>
    if decide (x = quote) then String quote (String quote (replace_quotes s))
    else String x (replace_quotes s)
  end.

(** What the callback of [headers.map] returns for a value, as [join]
    writes it. *)
Definition field (v : cell) : string :=
  match v with
  | Text s =>
    if includes comma s || includes quote s
    then String quote (replace_quotes s +:+ String quote "")
    else s
  | Other shown => shown
  | Nullish => ""
  end.

(** [Array.prototype.join]. *)
Fixpoint join (sep : string) (l : list string) : string :=
  match l with
  | [] => ""
  | x :: l' => match l' with [] => x | _ => x +:+ sep +:+ join sep l' end
  end.

Definition line (headers : list string) (r : row) : string :=
  join "," (List.map (λ header, field (get header r)) headers).

Definition csvContent (first : row) (data : list row) : string :=
  let headers := List.map fst first in
  join (String newline "") (join "," headers :: List.map (line headers) data).

(** The page: the notifications shown and the files handed to the
    browser, as name and content. *)
Record page := {
  notifications : list (string * string);
  downloads : list (string * string) }.

Definition showNotification (message type : string) (w : page) : page :=
  {| notifications := (notifications w ++ [(message, type)])%list;
     downloads := downloads w |}.

Definition click_link (filename content : string) (w : page) : page :=
  {| notifications := notifications w;
     downloads := (downloads w ++ [(filename, content)])%list |}.

(** [Utils.downloadCSV(data, filename)]; [data] is [None] for [null]
    and [undefined]. *)
Definition downloadCSV (data : option (list row)) (filename : string) (w : page) : page :=
  match data with
  | None | Some [] => showNotification "No data to export" "warning" w
  | Some ((first :: _) as data) =>
    showNotification "Data exported successfully!" "success"
      (click_link filename (csvContent first data) w)
  end.

(** ** A reader of CSV text

    The reader splits a text into records at line ends and into fields
    at commas; a field that starts with a quote runs to the next single
    quote, and two quotes in it stand for one. *)
Inductive mode := Start | Plain | Quoted | QuoteSeen.

Fixpoint read (m : mode) (cur : string) (rec : list string) (s : string)
    : list (list string) :=
  match s with
  | "" => [(rec ++ [cur])%list]
  | String c s =>
    match m with
    | Quoted =>
      if decide (c = quote) then read QuoteSeen cur rec s
      else read Quoted (cur +:+ String c "") rec s
    | _ =>
      if decide (c = comma) then read Start "" (rec ++ [cur])%list s
      else if decide (c = newline) then (rec ++ [cur])%list :: read Start "" [] s
      else if decide (c = quote) then
        match m with
        | Start => read Quoted "" rec s
        | QuoteSeen => read Quoted (cur +:+ String quote "") rec s
        | _ => read Plain (cur +:+ String c "") rec s
        end
      else read Plain (cur +:+ String c "") rec s
    end
  end.

Definition read_csv (s : string) : list (list string) := read Start "" [] s.

(** A text without comma, quote and line end. *)
Definition plain (s : string) : bool :=
  negb (includes comma s) && negb (includes quote s) && negb (includes newline s).

(** The values that are written so that they can be read back: a
    string with a line end also has a comma or a quote, and the text of
    a value that is no string is plain. *)
Definition safe (v : cell) : bool :=
  match v with
  | Text s => includes comma s || includes quote s || negb (includes newline s)
  | Other shown => plain shown
  | Nullish => true
  end.

(** The text that a value stands for. *)
Definition written (v : cell) : string :=
  match v with
  | Text s => s
  | Other shown => shown
  | Nullish => ""
  end.

End Csv.

Module CsvFacts.
Import Csv.
#[local] Arguments String.append !_ _ / : simpl nomatch.

(** The text is empty or starts with a comma or a line end. *)
Definition at_sep (s : string) : bool :=
  match s with
  | "" => true
  | String c _ => bool_decide (c = comma) || bool_decide (c = newline)
  end.

(** The text is empty or starts with a line end. *)
Definition at_end (s : string) : bool :=
  match s with
  | "" => true
  | String c _ => bool_decide (c = newline)
  end.

Lemma at_end_sep (s : string) : at_end s → at_sep s.
Proof. destruct s as [|c s]; [done|]. cbn. intros H. by rewrite orb_True; right. Qed.

Lemma read_mode_sep (m1 m2 : mode) (cur : string) (rec : list string) (rest : string) :
  m1 ≠ Quoted → m2 ≠ Quoted → at_sep rest →
  read m1 cur rec rest = read m2 cur rec rest.
Proof.
  intros H1 H2 Hs. destruct rest as [|c rest]; [by destruct m1, m2|].
  cbn in Hs. apply orb_True in Hs as [Hc|Hc]; apply bool_decide_unpack in Hc; subst c;
    by destruct m1, m2.
Qed.

Lemma includes_cons (c x : ascii) (s : string) :
  includes c (String x s) = false → x ≠ c ∧ includes c s = false.
Proof.
  cbn. intros H. apply orb_false_iff in H as [H1 H2].
  split; [by apply bool_decide_eq_false in H1 | done].
Qed.

Lemma plain_cons (x : ascii) (s : string) :
  plain (String x s) → x ≠ comma ∧ x ≠ quote ∧ x ≠ newline ∧ plain s.
Proof.
  unfold plain. rewrite !andb_True, !negb_True. intros [[H1 H2] H3].
  apply Is_true_false_1, includes_cons in H1 as [? H1].
  apply Is_true_false_1, includes_cons in H2 as [? H2].
  apply Is_true_false_1, includes_cons in H3 as [? H3].
  rewrite H1, H2, H3. cbn. naive_solver.
Qed.

Lemma read_plain (m : mode) (acc : string) (rec : list string) (s rest : string) :
  m ≠ Quoted → plain s → at_sep rest →
  read m acc rec (s +:+ rest) = read Plain (acc +:+ s) rec rest.
Proof.
  revert m acc. induction s as [|x s IH]; intros m acc Hm Hp Hs.
  - rewrite FormatFacts.append_empty_r. cbn. by apply read_mode_sep.
  - apply plain_cons in Hp as (H1 & H2 & H3 & Hp).
    transitivity (read Plain (acc +:+ String x "") rec (s +:+ rest)).
    { cbn. destruct m; try done; by rewrite !decide_False by done. }
    rewrite IH by done. by rewrite Format.append_assoc.
Qed.

Lemma read_quoted (acc : string) (rec : list string) (s rest : string) :
  at_sep rest →
  read Quoted acc rec (replace_quotes s +:+ String quote rest)
  = read Plain (acc +:+ s) rec rest.
Proof.
  intros Hs. revert acc. induction s as [|x s IH]; intros acc.
  - rewrite FormatFacts.append_empty_r. cbn. rewrite decide_True by done.
    by apply read_mode_sep.
  - cbn [replace_quotes]. destruct (decide (x = quote)) as [->|Hx].
    + cbn. rewrite IH. by rewrite Format.append_assoc.
    + cbn. rewrite decide_False by done. rewrite IH. by rewrite Format.append_assoc.
Qed.

Lemma read_field (v : cell) (rec : list string) (rest : string) :
  safe v → at_sep rest →
  read Start "" rec (field v +:+ rest) = read Plain (written v) rec rest.
Proof.
  intros Hv Hs. destruct v as [s|shown|]; cbn [field written].
  - destruct (includes comma s || includes quote s) eqn:E.
    + cbn. rewrite Format.append_assoc. cbn. by rewrite read_quoted.
    + rewrite read_plain; [done | done | | done].
      cbn in Hv. rewrite E in Hv. cbn in Hv.
      apply orb_false_iff in E as [E1 E2]. unfold plain. rewrite E1, E2. done.
  - by rewrite read_plain.
  - cbn. by apply read_mode_sep.
Qed.

Lemma read_plain_end (cur : string) (rec : list string) (rest : string) :
  at_end rest →
  read Plain cur rec rest =
  match rest with
  | "" => [(rec ++ [cur])%list]
  | String _ r => (rec ++ [cur])%list :: read Start "" [] r
  end.
Proof.
  destruct rest as [|c r]; [done|]. cbn. intros Hc.
  apply bool_decide_unpack in Hc. subst c. done.
Qed.

Lemma read_line (vs : list cell) (rec : list string) (rest : string) :
  vs ≠ [] → Forall (λ v, safe v) vs → at_end rest →
  read Start "" rec (join "," (List.map field vs) +:+ rest) =
  match rest with
  | "" => [(rec ++ List.map written vs)%list]
  | String _ r => (rec ++ List.map written vs)%list :: read Start "" [] r
  end.
Proof.
  revert rec. induction vs as [|v vs IH]; intros rec Hne Hsafe He; [done|].
  apply Forall_cons in Hsafe as [Hv Hvs].
  destruct vs as [|v' vs].
  - cbn [List.map join]. rewrite read_field by (done || by apply at_end_sep).
    by rewrite read_plain_end.
  - change (join "," (List.map field (v :: v' :: vs)))
      with (field v +:+ "," +:+ join "," (List.map field (v' :: vs))).
    rewrite !Format.append_assoc. rewrite read_field by done.
    cbn [String.append]. cbn [read]. rewrite decide_True by done.
    rewrite IH by done. cbn [List.map].
    destruct rest; by rewrite <- app_assoc.
Qed.

Lemma read_lines (rows : list (list cell)) :
  rows ≠ [] →
  Forall (λ vs, vs ≠ [] ∧ Forall (λ v, safe v) vs) rows →
  read Start "" [] (join (String newline "")
                         (List.map (λ vs, join "," (List.map field vs)) rows))
  = List.map (List.map written) rows.
Proof.
  induction rows as [|vs rows IH]; intros Hne Hall; [done|].
  apply Forall_cons in Hall as [[Hvs Hsafe] Hall].
  destruct rows as [|vs' rows].
  - cbn [List.map join]. rewrite <- (FormatFacts.append_empty_r (join _ _)).
    by rewrite read_line.
  - change (join (String newline "") (List.map ?f (vs :: vs' :: rows)))
      with (f vs +:+ String newline "" +:+
            join (String newline "") (List.map f (vs' :: rows))).
    cbn beta. rewrite read_line by done. cbn [String.append].
    rewrite IH by done. done.
Qed.

(** X20.  When the first row has a key, the keys are plain (no comma,
    no quote, no line end), a string with a line end also has a comma
    or a quote, and the text of every other value is plain, then the
    file that [downloadCSV] hands to the browser is read back by a CSV
    reader as the keys followed, row by row, by the value of each key
    (where a row lacks the key: the empty text, or the text of what the
    row inherits under that name): commas, quotes and quoted line ends
    in strings survive. *)
Theorem csv_read_back (first : row) (others : list row) (filename : string) (w : page) :
  let data := first :: others in
  let headers := List.map fst first in
  headers ≠ [] →
  Forall (λ h, plain h) headers →
  Forall (λ r, Forall (λ h, safe (get h r)) headers) data →
  ∃ content,
    downloads (downloadCSV (Some data) filename w)
      = (downloads w ++ [(filename, content)])%list ∧
    read_csv content
      = headers :: List.map (λ r, List.map (λ h, written (get h r)) headers) data.
Proof.
  intros data headers Hne Hplain Hsafe.
  exists (csvContent first data). split; [done|].
  unfold read_csv, csvContent. fold headers.
  pose (cells (r : row) := List.map (λ h, get h r) headers).
  assert (Hl : ∀ r, line headers r = join "," (List.map field (cells r))).
  { intros r. unfold line, cells. by rewrite List.map_map. }
  assert (Hh : join "," headers = join "," (List.map field (List.map Other headers))).
  { rewrite List.map_map. cbn [field]. by rewrite List.map_id. }
  rewrite Hh. rewrite (List.map_ext _ _ Hl).
  rewrite <- (List.map_map cells (λ vs, join "," (List.map field vs))).
  change (join "," (List.map field (List.map Other headers))
          :: List.map (λ vs, join "," (List.map field vs)) (List.map cells data))
    with (List.map (λ vs, join "," (List.map field vs))
            (List.map Other headers :: List.map cells data)).
  rewrite read_lines.
  - cbn [List.map]. f_equal.
    + rewrite List.map_map. cbn [written]. by rewrite List.map_id.
    + rewrite List.map_map. apply List.map_ext. intros r. unfold cells.
      by rewrite List.map_map.
  - done.
  - apply Forall_cons. split.
    + split; [by destruct headers|]. apply Forall_fmap.
      by eapply Forall_impl; [exact Hplain|].
    + apply Forall_fmap. eapply Forall_impl; [exact Hsafe|]. intros r Hr. cbn.
      split; [unfold cells; by destruct headers|].
      unfold cells. by apply Forall_fmap.
Qed.

Lemma csv_read_back_witness :
  (∃ content,
    downloads (downloadCSV
      (Some [[("name", Text "a,b"); ("clicks", Other "3")];
             [("name", Text (String quote "x")); ("note", Text "y")]])
      "export.csv" {| notifications := []; downloads := [] |})
      = [("export.csv", content)] ∧
    read_csv content
      = [["name"; "clicks"]; ["a,b"; "3"]; [String quote "x"; ""]]) ∧
  (∃ content,
    downloads (downloadCSV
      (Some [[("constructor", Text "x")]; [("name", Text "y")]])
      "export.csv" {| notifications := []; downloads := [] |})
      = [("export.csv", content)] ∧
    read_csv content
      = [["constructor"]; ["x"]; ["function Object() { [native code] }"]]).
Proof.
  split.
  - apply (csv_read_back [("name", Text "a,b"); ("clicks", Other "3")]
             [[("name", Text (String quote "x")); ("note", Text "y")]]
             "export.csv" {| notifications := []; downloads := [] |});
      [done | by repeat constructor | by repeat constructor].
  - apply (csv_read_back [("constructor", Text "x")] [[("name", Text "y")]]
             "export.csv" {| notifications := []; downloads := [] |});
      [done | by repeat constructor | by repeat constructor].
Defined.

End CsvFacts.

(* ===================================================================== *)
(** * ChartManager.createPartnerChart (charts.js): the bars *)
(* ===================================================================== *)

Module PartnerChart.
Local Open Scope Z_scope.
Local Open Scope list_scope.

Record partner := { name : string; clicks : Z }.

(** [data.sort((a, b) => b.clicks - a.clicks)]: the sort of an array is
    stable, so the result is the one of inserting each element after
    the elements with more clicks and before those with as many. *)
Fixpoint place (x : partner) (l : list partner) : list partner :=
  match l with
  | [] => [x]
  | y :: l' => if decide (clicks x < clicks y) then y :: place x l' else x :: l
  end.

Fixpoint sort (data : list partner) : list partner :=
  match data with
  | [] => []
  | x :: data => place x (sort data)
  end.

(** What [createPartnerChart(data)] does before it creates the chart:
    [data] is sorted in place, and the labels and the values of the
    data set are those of the first ten elements. *)
Record bars := {
  data_after : list partner;
  labels : list string;
  values : list Z }.

Definition createPartnerChart (data : list partner) : bars :=
  let data := sort data in
  let sortedData := take 10 data in
  {| data_after := data;
     labels := List.map name sortedData;
     values := List.map clicks sortedData |}.

Fixpoint descending (l : list partner) : Prop :=
  match l with
  | [] => True
  | x :: l => Forall (λ y, clicks y ≤ clicks x) l ∧ descending l
  end.

End PartnerChart.

Module PartnerChartFacts.
Import PartnerChart.
Local Open Scope Z_scope.
Local Open Scope list_scope.

Lemma place_perm (x : partner) (l : list partner) : place x l ≡ₚ x :: l.
Proof.
  induction l as [|y l IH]; [done|]. cbn. case_decide; [|done].
  rewrite IH. apply Permutation_swap.
Qed.

Lemma sort_perm (data : list partner) : sort data ≡ₚ data.
Proof.
  induction data as [|x data IH]; [done|]. cbn. by rewrite place_perm, IH.
Qed.

Lemma place_descending (x : partner) (l : list partner) :
  descending l → descending (place x l).
Proof.
  induction l as [|y l IH]; intros Hd; [by split|].
  destruct Hd as [Hy Hd]. cbn. case_decide as Hlt.
  - split; [|by apply IH]. rewrite place_perm. apply Forall_cons. split; [lia | done].
  - split; [|by split]. apply Forall_cons. split; [lia|].
    eapply Forall_impl; [exact Hy|]. cbn. intros z Hz. lia.
Qed.

Lemma sort_descending (data : list partner) : descending (sort data).
Proof.
  induction data as [|x data IH]; [done|]. by apply place_descending.
Qed.

Lemma descending_lookup (l : list partner) (i j : nat) (a b : partner) :
  descending l → (i ≤ j)%nat → l !! i = Some a → l !! j = Some b →
  clicks b ≤ clicks a.
Proof.
  revert i j. induction l as [|x l IH]; intros i j Hd Hij Ha Hb; [done|].
  destruct Hd as [Hx Hd]. destruct i as [|i].
  - cbn in Ha. simplify_eq. destruct j as [|j]; cbn in Hb; [by simplify_eq|].
    rewrite Forall_forall in Hx. apply Hx. by eapply list_elem_of_lookup_2.
  - destruct j as [|j]; [lia|]. cbn in Ha, Hb. apply (IH i j); [done | lia | done | done].
Qed.

Lemma place_filter (c : Z) (x : partner) (l : list partner) :
  filter (λ p, clicks p = c) (place x l) = filter (λ p, clicks p = c) (x :: l).
Proof.
  induction l as [|y l IH]; [done|]. cbn [place]. case_decide as Hlt; [|done].
  rewrite filter_cons, IH, !filter_cons.
  destruct (decide (clicks y = c)), (decide (clicks x = c)); try done. lia.
Qed.

Lemma sort_filter (c : Z) (data : list partner) :
  filter (λ p, clicks p = c) (sort data) = filter (λ p, clicks p = c) data.
Proof.
  induction data as [|x data IH]; [done|]. cbn [sort].
  by rewrite place_filter, !filter_cons, IH.
Qed.

(** X21.  [createPartnerChart] leaves the caller's array sorted: the
    same partners, by falling clicks, partners with equal clicks in the
    order they had.  The chart shows the first ten of them (all, if
    there are fewer), label and value side by side, so that no partner
    left out has more clicks than one that is shown. *)
Theorem partner_chart_top_ten (data : list partner) :
  let b := createPartnerChart data in
  data_after b ≡ₚ data ∧
  (∀ i j x y, (i ≤ j)%nat → data_after b !! i = Some x → data_after b !! j = Some y →
     clicks y ≤ clicks x) ∧
  (∀ c, filter (λ p, clicks p = c) (data_after b) = filter (λ p, clicks p = c) data) ∧
  length (labels b) = (length data `min` 10)%nat ∧
  (∀ i, (i < 10)%nat →
     labels b !! i = name <$> data_after b !! i ∧
     values b !! i = clicks <$> data_after b !! i) ∧
  (∀ i j v y, values b !! i = Some v → (10 ≤ j)%nat → data_after b !! j = Some y →
     clicks y ≤ v).
Proof.
  cbv zeta. cbn [createPartnerChart data_after labels values].
  assert (Hlk : ∀ i, (i < 10)%nat →
            List.map name (take 10 (sort data)) !! i = name <$> sort data !! i ∧
            List.map clicks (take 10 (sort data)) !! i = clicks <$> sort data !! i).
  { intros i Hi. change (List.map ?f ?l) with (f <$> l).
    by rewrite !list_lookup_fmap, lookup_take_lt. }
  split; [apply sort_perm|]. split.
  { intros i j x y. apply descending_lookup, sort_descending. }
  split; [intros c; apply sort_filter|]. split.
  { rewrite length_map, length_take, (Permutation_length (sort_perm data)). lia. }
  split; [done|].
  intros i j v y Hv Hj Hy.
  assert (Hi : (i < 10)%nat).
  { apply lookup_lt_Some in Hv. rewrite length_map, length_take in Hv. lia. }
  destruct (Hlk i Hi) as [_ Hc]. rewrite Hc in Hv.
  destruct (sort data !! i) as [x|] eqn:Hx; [|done]. cbn in Hv. simplify_eq.
  apply (descending_lookup (sort data) i j); [apply sort_descending | lia | done | done].
Qed.

End PartnerChartFacts.
